(** * qBraid circuit construction: placement of instructions into moments

    Shallow embedding of [qbraid/_archive/circuits/circuit.py] (class
    [Circuit]) and of the parts of its collaborators that the class calls.
    Python objects that are mutated in place and can be reached through
    several references (the [Moment]s) live in an explicit heap; a method
    of [Circuit] is a computation over the receiver and that heap which
    either returns or raises, keeping the mutations made so far. *)

From stdpp Require Import base numbers list strings.

(** ** Exceptions

    The class raises [CircuitError] with different messages, [TypeError]
    for [None], and Python raises [IndexError] on [xs[0]] / [xs[-1]] of an
    empty list, [TypeError] on [x[0]] of an object that cannot be indexed
    and [KeyError] on [d[0]] of a dict without the key.  The constructors
    name the cases. *)
Inductive error : Type :=
| TypeMismatch          (* TypeError("Operation of type ... not appendable") *)
| IndexError            (* list index out of range *)
| NotSubscriptable      (* TypeError("'...' object is not subscriptable") *)
| KeyError              (* KeyError(0) *)
| OutOfRangeResource    (* CircuitError raised by validate_operation on an instruction *)
| InvalidOperation      (* CircuitError("The ... moment is not appendable."),
                           CircuitError("... not appendable") *)
| NameConflict          (* CircuitError("Name conflict on adding parameter: ...") *)
| ResourceConflict      (* raised by Moment.append *)
| UnsupportedUpdateRule (* CircuitError("The ... update rule is not implemented.") *).

(** Modelled from the spec: the enumeration [UpdateRule]
    ([update_rule.py]) is missing.  Its members are the four the class
    dispatches on; [UNSUPPORTED_RULE] stands for any other value handed in
    as a rule, which reaches the final [else] of [_update]. *)
Inductive UpdateRule : Type :=
| EARLIEST | INLINE | NEW | NEW_THEN_INLINE | UNSUPPORTED_RULE.

(** ** Leaves: parameters, gates, instructions *)

(** Modelled from the spec: the class [Parameter] ([parameter.py]) is
    missing.  A parameter is identified by identity, not by name;
    [param_id] is that identity, [param_name] the display name
    ([param.name]). *)
Record parameter : Type := { param_id : nat; param_name : string }.

(** An argument of a gate: a number, which the circuit never inspects, or
    a parameter ([isinstance(param, Parameter)]). *)
Inductive gate_param : Type :=
| Number (v : Z)
| Symbol (p : parameter).

(** Modelled from the spec: the gate classes are missing.  A gate is an
    operation-kind tag with its ordered arguments ([gate.params]). *)
Record Gate : Type := { gate_name : string; params : list gate_param }.

(** Modelled from the spec: the class [Instruction] ([instruction.py]) is
    missing.  An instruction holds its gate and the ordered indices of the
    qubits it touches; it is compared by identity in
    [_check_dup_param_spec] ([spec[0] is instruction]), and [instr_id] is
    that identity. *)
Record Instruction : Type :=
  { instr_id : nat; gate : Gate; qubits : list Z }.

(** A reference to a moment object: its position in the heap. *)
Abbreviation loc := nat.

(** ** Moment *)
Module Moment.

(** Modelled from the spec: the class [Moment] ([moment.py]) is not part of
    the sources at hand.  A moment holds its instructions in arrival
    order; the property [instructions] hands out that very list. *)
Abbreviation t := (list Instruction).

Definition moment_qubits (m : t) : list Z := m ≫= qubits.

(** Modelled from the spec: [Moment.appendable] is missing; it is true iff
    the instruction's qubits do not meet the qubits of the instructions
    already held. *)
Definition appendable (m : t) (op : Instruction) : bool :=
  forallb (λ q, negb (bool_decide (q ∈ moment_qubits m))) (qubits op).

(** Modelled from the spec: [Moment.append] is missing; it re-checks
    [appendable], fails with [ResourceConflict] on a clash and otherwise
    puts the instruction at the end. *)
Definition append (m : t) (op : Instruction) : error + t :=
  if appendable m op then inr (m ++ [op]) else inl ResourceConflict.

End Moment.

(** ** utils.validate_operation *)

Definition in_range (num_qubits : nat) (q : Z) : bool :=
  bool_decide (0 ≤ q)%Z && bool_decide (q < Z.of_nat num_qubits)%Z.

Definition instruction_in_range (num_qubits : nat) (op : Instruction) : bool :=
  forallb (in_range num_qubits) (qubits op).

(** Modelled from the spec: [validate_operation] ([utils.py]) is missing.
    On an instruction with a qubit index outside [0, num_qubits) it raises
    (the spec's [OutOfRangeResource]); otherwise it returns [True]. *)
Definition validate_operation_instruction
    (op : Instruction) (num_qubits : nat) : error + bool :=
  if instruction_in_range num_qubits op then inr true
  else inl OutOfRangeResource.

(** Modelled from the spec: on a moment, [validate_operation] answers
    whether every instruction held is within range; the callers raise on
    [False] (the spec's [InvalidOperation]). *)
Definition validate_operation_moment
    (m : Moment.t) (num_qubits : nat) : error + bool :=
  inr (forallb (instruction_in_range num_qubits) m).

(** ** ParameterTable *)
Module ParameterTable.

(** Modelled from the spec: the class [ParameterTable]
    ([parametertable.py]) is missing.  It maps a parameter to the list of
    its [(instruction, slot)] bindings and is used as a dict: [in],
    [table[p]], [table[p] = v], [get_names()], [get_keys()].  Entries are
    kept in registration order; keys are found by identity. *)
Abbreviation binding := (Instruction * nat)%type.
Abbreviation t := (list (parameter * list binding)).

Definition same_param (p q : parameter) : bool :=
  bool_decide (param_id p = param_id q).

Fixpoint getitem (tbl : t) (p : parameter) : option (list binding) :=
  match tbl with
  | [] => None
  | (q, bs) :: tbl' => if same_param q p then Some bs else getitem tbl' p
  end.

Definition contains (tbl : t) (p : parameter) : bool :=
  bool_decide (is_Some (getitem tbl p)).

Fixpoint setitem (tbl : t) (p : parameter) (bs : list binding) : t :=
  match tbl with
  | [] => [(p, bs)]
  | (q, bs') :: tbl' =>
      if same_param q p then (q, bs) :: tbl' else (q, bs') :: setitem tbl' p bs
  end.

Definition get_keys (tbl : t) : list parameter := tbl.*1.

Definition get_names (tbl : t) : list string := param_name <$> get_keys tbl.

End ParameterTable.

(** ** Circuit *)
Module Circuit.

(** The attributes set by [__init__].  [_moments] holds references into
    the heap of moments: the same moment may occur at several positions
    and in several circuits. *)
Record t : Type := {
  _qubits : list nat;                       (* [Qubit(i) for i in range(abs(n))] *)
  _moments : list loc;
  name : option string;
  update_rule : UpdateRule;
  _parameter_table : ParameterTable.t;
}.

Definition __init__ (num_qubits : Z) (name : option string)
    (update_rule : UpdateRule) : t :=
  {| _qubits := seq 0 (Z.abs_nat num_qubits);
     _moments := [];
     name := name;
     update_rule := update_rule;
     _parameter_table := [] |}.

Definition num_qubits (c : t) : nat := length (_qubits c).

(** What [append] can be handed as one element: an instruction, a moment
    (by reference), a circuit, or any other object ([str], [int], a nested
    list, ...).  [ECircuit sub] is a circuit object other than the
    receiver, given by its attributes at the time of the call; its moments
    are references into the same heap. *)
Inductive element : Type :=
| EInstruction (op : Instruction)
| EMoment (m : loc)
| ECircuit (sub : t)
| EOther.

(** The [operation] argument of [append]: [None], one object that is not
    iterable (instructions, moments and circuits define no [__iter__]), a
    sequence of objects that can be indexed and iterated (a list or a
    tuple; a [str] is a sequence of [EOther]), or any other iterable (a
    set, a dict, an iterator, a generator).  Of such an iterable the
    class uses two things: [operation[0]], which raises ([TypeError] for
    a set or an iterator, [KeyError] for a dict without the key [0]) or
    gives an object (the entry of a dict under [0]), and the objects that
    iterating it yields (the keys of a dict). *)
Inductive operand : Type :=
| ONone
| OSingle (e : element)
| OSeq (es : list element)
| OIter (first : error + element) (items : list element).

(** The [mapping] argument of [append]: [Union[list, dict]], the qubits
    of the receiver that the qubits of a sub-circuit stand for. *)
Inductive mapping : Type :=
| MapList (targets : list Z)
| MapDict (pairs : list (Z * Z)).

(** *** The state a method runs in, and the monad of methods *)
Record world : Type := { self : t; heap : list Moment.t }.

Inductive outcome (A : Type) : Type :=
| Return (a : A)
| Raise (e : error).
Arguments Return {A} a.
Arguments Raise {A} e.

Definition M (A : Type) : Type := world → outcome A * world.

#[global] Instance M_ret : MRet M := λ A a w, (Return a, w).
#[global] Instance M_bind : MBind M := λ A B f m w,
  match m w with
  | (Return a, w') => f a w'
  | (Raise e, w') => (Raise e, w')
  end.

Definition raise {A} (e : error) : M A := λ w, (Raise e, w).
Definition gets {A} (f : world → A) : M A := λ w, (Return (f w), w).
Definition modify (f : world → world) : M unit := λ w, (Return (), f w).

Definition with_moments (ms : list loc) (w : world) : world :=
  {| self := {| _qubits := _qubits (self w); _moments := ms;
                name := name (self w); update_rule := update_rule (self w);
                _parameter_table := _parameter_table (self w) |};
     heap := heap w |}.
Definition with_parameter_table (tbl : ParameterTable.t) (w : world) : world :=
  {| self := {| _qubits := _qubits (self w); _moments := _moments (self w);
                name := name (self w); update_rule := update_rule (self w);
                _parameter_table := tbl |};
     heap := heap w |}.
Definition with_heap (h : list Moment.t) (w : world) : world :=
  {| self := self w; heap := h |}.

(** Attribute reads and writes of the receiver, and the heap. *)
Definition get_moments : M (list loc) := gets (λ w, _moments (self w)).
Definition get_num_qubits : M nat := gets (λ w, num_qubits (self w)).
Definition get_update_rule : M UpdateRule := gets (λ w, update_rule (self w)).
Definition get_parameter_table : M ParameterTable.t :=
  gets (λ w, _parameter_table (self w)).
Definition get_heap : M (list Moment.t) := gets heap.
Definition set_moments (ms : list loc) : M unit := modify (with_moments ms).
Definition set_parameter_table (tbl : ParameterTable.t) : M unit :=
  modify (with_parameter_table tbl).
Definition set_heap (h : list Moment.t) : M unit := modify (with_heap h).
Definition lift {A} (r : error + A) : M A :=
  match r with inl e => raise e | inr a => mret a end.

(** *** Queries *)

(** The moment behind a reference.  Every reference Python holds is live;
    a reference outside the heap reads as an empty moment here. *)
Definition moment_at (h : list Moment.t) (l : loc) : Moment.t :=
  default [] (h !! l).

(** [instructions]: the moments' instructions, in moment order. *)
Definition instructions (w : world) : list Instruction :=
  _moments (self w) ≫= moment_at (heap w).

Definition num_gates (w : world) : nat := length (instructions w).

(** [__len__] *)
Definition len (c : t) : nat := length (_moments c).

(** Reading and writing a moment through its reference (a write through
    a reference outside the heap is lost). *)
Definition deref (l : loc) : M Moment.t :=
  h ← get_heap; mret (moment_at h l).
Definition store (l : loc) (m : Moment.t) : M unit :=
  h ← get_heap; set_heap (<[l := m]> h).

(** [moment.append(op)] on the moment behind [l]. *)
Definition moment_append (l : loc) (op : Instruction) : M unit :=
  m ← deref l; m' ← lift (Moment.append m op); store l m'.

(** *** _earliest_appended

    The loop visits every moment of the circuit in order; it has no
    [break].  [earliest_scan] is the loop from a position on, [appended]
    the local variable. *)
Fixpoint earliest_scan (op : Instruction) (ms : list loc) (appended : bool)
    : M bool :=
  match ms with
  | [] => mret appended
  | l :: ms' =>
      m ← deref l;
      if Moment.appendable m op
      then moment_append l op;; earliest_scan op ms' true
      else earliest_scan op ms' appended
  end.

Definition _earliest_appended (op : Instruction) : M bool :=
  ms ← get_moments; earliest_scan op ms false.

(** *** _create_new_moment

    [Moment()] allocates a moment; [if op:] holds for every instruction
    object; the new moment goes to the end of [_moments]. *)
Definition _create_new_moment (op : option Instruction) : M unit :=
  h ← get_heap;
  let new_moment := match op with Some o => [o] | None => [] end in
  set_heap (h ++ [new_moment]);;
  ms ← get_moments;
  set_moments (ms ++ [length h]).

(** *** _check_dup_param_spec *)
Fixpoint _check_dup_param_spec (parameter_spec_list : list ParameterTable.binding)
    (instruction : Instruction) (param_index : nat) : bool :=
  match parameter_spec_list with
  | [] => false
  | spec :: rest =>
      if bool_decide (instr_id spec.1 = instr_id instruction)
         && bool_decide (spec.2 = param_index)
      then true
      else _check_dup_param_spec rest instruction param_index
  end.

(** *** _add_parameters

    [register] is the body of the loop for one [(param_index, param)] with
    [param] a [Parameter]; [add_parameters_from] is the loop over
    [enumerate(instruction.gate.params)] from a position on.  The cache
    attribute [_parameters], which the method resets and nothing in the
    class reads, is left out. *)
Definition register (instruction : Instruction) (param_index : nat)
    (param : parameter) : M unit :=
  current_parameters ← get_parameter_table;
  if ParameterTable.contains current_parameters param then
    let bs := default [] (ParameterTable.getitem current_parameters param) in
    if negb (_check_dup_param_spec bs instruction param_index)
    then set_parameter_table
           (ParameterTable.setitem current_parameters param
              (bs ++ [(instruction, param_index)]))
    else mret ()
  else
    if bool_decide (param_name param ∈ ParameterTable.get_names current_parameters)
    then raise NameConflict
    else set_parameter_table
           (ParameterTable.setitem current_parameters param
              [(instruction, param_index)]).

Fixpoint add_parameters_from (instruction : Instruction) (param_index : nat)
    (ps : list gate_param) : M unit :=
  match ps with
  | [] => mret ()
  | Number _ :: ps' => add_parameters_from instruction (S param_index) ps'
  | Symbol param :: ps' =>
      register instruction param_index param;;
      add_parameters_from instruction (S param_index) ps'
  end.

Definition _add_parameters (instruction : Instruction) : M unit :=
  add_parameters_from instruction 0 (params (gate instruction)).

(** *** _update, one element at a time *)

(** [xs[0]] and [xs[-1]] on the list of moments. *)
Definition first_moment : M loc :=
  ms ← get_moments;
  match ms with [] => raise IndexError | l :: _ => mret l end.

Definition last_moment : M loc :=
  ms ← get_moments;
  match last ms with None => raise IndexError | Some l => mret l end.

(** The branch [isinstance(op, Instruction)].  The result is the value of
    the local variable [update_rule] after the iteration. *)
Definition update_instruction (op : Instruction) (update_rule : UpdateRule)
    : M UpdateRule :=
  n ← get_num_qubits;
  ok ← lift (validate_operation_instruction op n);
  if ok : bool then
    _add_parameters op;;
    match update_rule with
    | NEW_THEN_INLINE =>
        l ← first_moment; m ← deref l;
        (if bool_decide (m = []) then moment_append l op
         else _create_new_moment (Some op));;
        mret INLINE
    | INLINE =>
        curr_moment ← last_moment; m ← deref curr_moment;
        (if Moment.appendable m op then moment_append curr_moment op
         else _create_new_moment (Some op));;
        mret update_rule
    | NEW =>
        l ← first_moment; m ← deref l;
        (if bool_decide (m = []) then moment_append l op
         else _create_new_moment (Some op));;
        mret update_rule
    | EARLIEST =>
        appended ← _earliest_appended op;
        (if negb appended then _create_new_moment (Some op) else mret ());;
        mret update_rule
    | UNSUPPORTED_RULE => raise UnsupportedUpdateRule
    end
  else mret update_rule.

(** [max(min(index if index >= 0 else len + index, len), 0)] *)
Definition clamp_index (index : Z) (len : nat) : nat :=
  Z.to_nat
    (Z.max (Z.min (if bool_decide (0 ≤ index)%Z then index
                   else Z.of_nat len + index)%Z
                  (Z.of_nat len)) 0).

(** [list.insert(k, x)] *)
Definition list_insert_at {A} (k : nat) (x : A) (xs : list A) : list A :=
  take k xs ++ x :: drop k xs.

(** [for instr in op.instructions: self._add_parameters(instr)] *)
Fixpoint add_parameters_all (instrs : list Instruction) : M unit :=
  match instrs with
  | [] => mret ()
  | instr :: rest => _add_parameters instr;; add_parameters_all rest
  end.

(** [self._moments.insert(k, op)] *)
Definition insert_moment (k : nat) (op : loc) : M unit :=
  ms ← get_moments; set_moments (list_insert_at k op ms).

(** The branch [isinstance(op, Moment)]; [k] is computed from [index]
    afresh in every iteration, so the [k += 1] at its end has no effect
    and is left out. *)
Definition update_moment (op : loc) (index : Z) : M unit :=
  ms ← get_moments;
  let k := clamp_index index (length ms) in
  n ← get_num_qubits;
  m ← deref op;
  ok ← lift (validate_operation_moment m n);
  if ok : bool then
    add_parameters_all m;;
    insert_moment k op
  else raise InvalidOperation.

(** [self.append(moment, update_rule=update_rule)] as [_append_circuit]
    calls it: a moment is not iterable, so [append] calls itself on
    [[moment]]; the first element of that list is no instruction, so no
    moment is created, and [_update([moment], index=len(self._moments))]
    runs the moment branch once. *)
Definition append_moment (l : loc) : M unit :=
  ms ← get_moments;
  update_moment l (Z.of_nat (length ms)).

(** *** _append_circuit

    Every element of [circuit.moments] is a [Moment]. *)
Fixpoint append_circuit_from (moments : list loc) : M unit :=
  match moments with
  | [] => mret ()
  | moment :: rest =>
      n ← get_num_qubits;
      m ← deref moment;
      ok ← lift (validate_operation_moment m n);
      (if ok : bool then append_moment moment else raise InvalidOperation);;
      append_circuit_from rest
  end.

Definition _append_circuit (circuit : t) (update_rule : UpdateRule) : M unit :=
  append_circuit_from (_moments circuit).

(** One iteration of the loop of [_update]. *)
Definition update_element (op : element) (update_rule : UpdateRule)
    (index : Z) : M UpdateRule :=
  match op with
  | EInstruction i => update_instruction i update_rule
  | EMoment l => update_moment l index;; mret update_rule
  | ECircuit sub => _append_circuit sub update_rule;; mret update_rule
  | EOther => mret update_rule
  end.

(** The loop of [_update]; the result is the final value of the local
    [update_rule]. *)
Fixpoint update_loop (operation : list element) (update_rule : UpdateRule)
    (index : Z) : M UpdateRule :=
  match operation with
  | [] => mret update_rule
  | op :: rest =>
      r ← update_element op update_rule index;
      update_loop rest r index
  end.

Definition _update (operation : list element) (update_rule : UpdateRule)
    (index : Z) : M unit :=
  update_loop operation update_rule index;; mret ().

(** *** append *)

Definition is_instruction (e : element) : bool :=
  match e with EInstruction _ => true | _ => false end.

(** [if not self._moments and isinstance(operation, Iterable): ...] on an
    iterable [operation]. *)
Definition append_prelude (operation : list element) : M unit :=
  ms ← get_moments;
  if bool_decide (ms = []) then
    match operation with
    | [] => raise IndexError                        (* operation[0] *)
    | e :: _ => if is_instruction e then _create_new_moment None else mret ()
    end
  else mret ().

(** [append] on an iterable [operation], [update_rule] already resolved. *)
Definition append_iterable (operation : list element) (update_rule : UpdateRule)
    : M unit :=
  append_prelude operation;;
  ms ← get_moments;
  _update operation update_rule (Z.of_nat (length ms)).

(** The same on an iterable that is no sequence: [operation[0]] is
    evaluated only if the circuit has no moment, the loop of [_update]
    takes what iterating yields. *)
Definition append_prelude_first (first : error + element) : M unit :=
  ms ← get_moments;
  if bool_decide (ms = []) then
    e ← lift first;                                 (* operation[0] *)
    if is_instruction e then _create_new_moment None else mret ()
  else mret ().

Definition append_unindexed (first : error + element) (items : list element)
    (update_rule : UpdateRule) : M unit :=
  append_prelude_first first;;
  ms ← get_moments;
  _update items update_rule (Z.of_nat (length ms)).

Definition append (operation : operand) (mapping : option mapping)
    (update_rule : option UpdateRule) : M unit :=
  match operation with
  | ONone => raise TypeMismatch
  | OSeq es =>
      d ← get_update_rule;
      append_iterable es (default d update_rule)
  | OIter first items =>
      d ← get_update_rule;
      append_unindexed first items (default d update_rule)
  | OSingle e =>
      d ← get_update_rule;
      (* self.append(operation=[operation], mapping=mapping,
                     update_rule=update_rule) *)
      append_iterable [e] (default d update_rule)
  end.

(** A sequence of [append] calls on the same circuit; a raise ends it. *)
Definition call : Type := operand * option mapping * option UpdateRule.

Fixpoint run_calls (cs : list call) : M unit :=
  match cs with
  | [] => mret ()
  | (operation, mp, rule) :: rest => append operation mp rule;; run_calls rest
  end.

End Circuit.

Import Circuit.

(** * Notions the properties are stated with *)

(** Invariant I1 of a moment: instructions at two different positions
    touch no common qubit. *)
Definition disjoint_qubits (a b : Instruction) : Prop :=
  ∀ q, q ∈ qubits a → q ∉ qubits b.

Definition I1 (m : Moment.t) : Prop :=
  ∀ i j a b, i ≠ j → m !! i = Some a → m !! j = Some b → disjoint_qubits a b.

(** I1 of every moment object there is: those of the receiver, those of
    other circuits and those not yet placed anywhere. *)
Definition heap_I1 (w : world) : Prop := Forall I1 (heap w).

Definition keeps_I1 : relation world := λ w w', heap_I1 w → heap_I1 w'.

(** I1 as a check that runs: each instruction against those behind it. *)
Fixpoint I1_check (m : Moment.t) : bool :=
  match m with
  | [] => true
  | a :: m' => Moment.appendable m' a && I1_check m'
  end.

(** The pair [(instruction, slot)] is among the bindings [bs]: some entry
    holds that very instruction object and that slot. *)
Definition recorded (bs : list ParameterTable.binding)
    (instruction : Instruction) (slot : nat) : Prop :=
  ∃ b, b ∈ bs ∧ instr_id b.1 = instr_id instruction ∧ b.2 = slot.

(** The state only grows from [w] to [w']: the moments of the circuit
    are still in the sequence, in their order; every moment object still
    starts with the instructions it had; every parameter still starts with
    the bindings it had. *)
Record grows (w w' : world) : Prop := {
  grows_moments : _moments (self w) `sublist_of` _moments (self w');
  grows_heap : ∀ l m, heap w !! l = Some m →
                      ∃ m', heap w' !! l = Some (m ++ m');
  grows_table : ∀ p bs,
    ParameterTable.getitem (_parameter_table (self w)) p = Some bs →
    ∃ bs', ParameterTable.getitem (_parameter_table (self w')) p
           = Some (bs ++ bs');
}.

(** The parameters among the arguments of an instruction's gate, and
    what makes the parameters of a list of instructions valid together:
    two with the same display name are the same parameter. *)
Definition symbols_of (op : Instruction) : list parameter :=
  omap (λ gp, match gp with Symbol p => Some p | Number _ => None end)
       (params (gate op)).

Definition names_consistent (ops : list Instruction) : Prop :=
  ∀ p q, p ∈ ops ≫= symbols_of → q ∈ ops ≫= symbols_of →
         param_name p = param_name q → param_id p = param_id q.

(** The state of a circuit [c0], created when the heap was [h0], whose
    moments are one fresh moment for each of the instructions [placed]. *)
Definition one_moment_each (c0 : Circuit.t) (h0 : list Moment.t)
    (placed : list Instruction) (tbl : ParameterTable.t) : world :=
  {| self := {| _qubits := _qubits c0;
                _moments := seq (length h0) (length placed);
                name := name c0; update_rule := update_rule c0;
                _parameter_table := tbl |};
     heap := h0 ++ ((λ op, [op]) <$> placed) |}.

(** Invariant I2 of a parameter table: no two entries share a display
    name, and no two entries are the same parameter. *)
Definition I2 (tbl : ParameterTable.t) : Prop :=
  NoDup (ParameterTable.get_names tbl) ∧
  NoDup (param_id <$> ParameterTable.get_keys tbl).

Definition keeps_I2 : relation world := λ w w',
  I2 (_parameter_table (self w)) → I2 (_parameter_table (self w')).

(** The attributes of the circuit that are set once, at construction. *)
Definition same_attributes : relation world := λ w w',
  _qubits (self w') = _qubits (self w) ∧
  name (self w') = name (self w) ∧
  update_rule (self w') = update_rule (self w).

(** The parameter [p] is registered with the pair [(instruction, slot)]. *)
Definition bound (tbl : ParameterTable.t) (instruction : Instruction)
    (slot : nat) (p : parameter) : Prop :=
  ∃ bs, ParameterTable.getitem tbl p = Some bs ∧ recorded bs instruction slot.

(** The chain of tests on [update_rule] in the instruction branch of
    [_update], by itself: what is done with an instruction once it is
    validated and its parameters are registered. *)
Definition place (op : Instruction) (update_rule : UpdateRule) : M UpdateRule :=
  match update_rule with
  | NEW_THEN_INLINE =>
      l ← first_moment; m ← deref l;
      (if bool_decide (m = []) then moment_append l op
       else _create_new_moment (Some op));;
      mret INLINE
  | INLINE =>
      curr_moment ← last_moment; m ← deref curr_moment;
      (if Moment.appendable m op then moment_append curr_moment op
       else _create_new_moment (Some op));;
      mret update_rule
  | NEW =>
      l ← first_moment; m ← deref l;
      (if bool_decide (m = []) then moment_append l op
       else _create_new_moment (Some op));;
      mret update_rule
  | EARLIEST =>
      appended ← _earliest_appended op;
      (if negb appended then _create_new_moment (Some op) else mret ());;
      mret update_rule
  | UNSUPPORTED_RULE => raise UnsupportedUpdateRule
  end.

(** One turn of the loop of [_append_circuit], on the moment [moment]. *)
Definition append_circuit_step (moment : loc) : M unit :=
  n ← get_num_qubits;
  m ← deref moment;
  ok ← lift (validate_operation_moment m n);
  if ok : bool then append_moment moment else raise InvalidOperation.

(** An element that [_update] passes over without writing: an object that
    is no instruction, moment or circuit, or a circuit without moments. *)
Definition places_nothing (e : element) : Prop :=
  e = EOther ∨ ∃ sub, e = ECircuit sub ∧ _moments sub = [].

(** Every instruction in a moment of the circuit is within the range of
    the circuit's qubits. *)
Definition placed_in_range (w : world) : Prop :=
  ∀ l, l ∈ _moments (self w) →
       forallb (instruction_in_range (num_qubits (self w)))
               (moment_at (heap w) l) = true.

Definition keeps_in_range : relation world := λ w w',
  num_qubits (self w') = num_qubits (self w) ∧
  (placed_in_range w → placed_in_range w').

(** [params]: the keys of the parameter table. *)
Definition params_of (w : world) : list parameter :=
  ParameterTable.get_keys (_parameter_table (self w)).

(** ** Sample data *)

Definition H_gate : Gate := {| gate_name := "H"; params := [] |}.

(** An instruction object [id] applying [H] to the qubits [qs]. *)
Definition instr (id : nat) (qs : list Z) : Instruction :=
  {| instr_id := id; gate := H_gate; qubits := qs |}.

(** [Circuit(n, update_rule=r)] in a program that has built no moment. *)
Definition fresh (n : Z) (r : UpdateRule) : world :=
  {| self := __init__ n None r; heap := [] |}.

(** [circuit.append(op)] *)
Definition append_op (op : Instruction) : call :=
  (OSingle (EInstruction op), None, None).

(** The moments of the circuit, each with its instructions. *)
Definition moment_structure (w : world) : list Moment.t :=
  moment_at (heap w) <$> _moments (self w).

(** The moments of the circuit are objects of its own: none occurs twice
    in the sequence, and each is a live object. *)
Definition own_moments (w : world) : Prop :=
  NoDup (_moments (self w)) ∧
  ∀ l, l ∈ _moments (self w) → l < length (heap w).






(** [steps R m]: whatever the method [m] does, returning or raising, the
    state it leaves is [R]-related to the state it started in. *)
Definition steps {A} (R : relation world) (m : M A) : Prop :=
  ∀ w, R w (m w).2.

(** * Running methods *)

Lemma run_bind {A B} (m : M A) (f : A → M B) (w : world) :
  (m ≫= f) w =
  match m w with
  | (Return a, w') => f a w'
  | (Raise e, w') => (Raise e, w')
  end.
Proof. reflexivity. Qed.

(** Runs the binds and the reads and writes of attributes in the goal. *)
Ltac mrun :=
  repeat (rewrite ?run_bind;
          unfold get_moments, get_num_qubits, get_update_rule,
            get_parameter_table, get_heap, set_moments, set_parameter_table,
            set_heap, gets, modify, lift, raise, deref, store, num_qubits,
            with_moments, with_parameter_table, with_heap;
          simpl).

(** ** Properties of all methods at once

    A property of computations that holds of returning, of raising and of
    the few reads and writes the class is made of, and that is kept by
    sequencing, holds of every method. *)
Section methods.
Context (P : ∀ A, M A → Prop).
Hypothesis P_ret : ∀ A (a : A), P A (mret a).
Hypothesis P_raise : ∀ A e, P A (raise e).
Hypothesis P_bind : ∀ A B (m : M A) (f : A → M B),
  P A m → (∀ a, P B (f a)) → P B (m ≫= f).
Hypothesis P_get_moments : P _ get_moments.
Hypothesis P_get_num_qubits : P _ get_num_qubits.
Hypothesis P_get_update_rule : P _ get_update_rule.
Hypothesis P_deref : ∀ l, P _ (deref l).
Hypothesis P_moment_append : ∀ l op, P _ (moment_append l op).
Hypothesis P_create_new_moment : ∀ op, P _ (_create_new_moment op).
Hypothesis P_register : ∀ i k p, P _ (register i k p).
Hypothesis P_insert_moment : ∀ k l, P _ (insert_moment k l).

Lemma P_lift A (r : error + A) : P A (lift r).
Proof. destruct r; [apply P_raise | apply P_ret]. Qed.

Ltac step :=
  lazymatch goal with
  | |- P _ (_ ≫= _) => apply P_bind; [|intros ?]
  | |- P _ (mret _) => apply P_ret
  | |- P _ (raise _) => apply P_raise
  | |- P _ (lift _) => apply P_lift
  | |- P _ (deref _) => apply P_deref
  | |- P _ get_moments => apply P_get_moments
  | |- P _ get_num_qubits => apply P_get_num_qubits
  | |- P _ get_update_rule => apply P_get_update_rule
  | |- P _ (moment_append _ _) => apply P_moment_append
  | |- P _ (_create_new_moment _) => apply P_create_new_moment
  | |- P _ (register _ _ _) => apply P_register
  | |- P _ (insert_moment _ _) => apply P_insert_moment
  | |- P _ (if ?b then _ else _) => destruct b
  | |- P _ (match ?x with _ => _ end) => destruct x
  end.

Lemma P_earliest_scan op ms appended : P _ (earliest_scan op ms appended).
Proof.
  revert appended. induction ms as [|l ms IH]; intros appended; simpl.
  - step.
  - repeat step; apply IH.
Qed.

Lemma P_earliest_appended op : P _ (_earliest_appended op).
Proof. unfold _earliest_appended. repeat step. apply P_earliest_scan. Qed.

Lemma P_add_parameters_from instr k ps : P _ (add_parameters_from instr k ps).
Proof.
  revert k. induction ps as [|p ps IH]; intros k; simpl.
  - step.
  - destruct p; [apply IH|]. repeat step. apply IH.
Qed.

Lemma P_add_parameters instr : P _ (_add_parameters instr).
Proof. apply P_add_parameters_from. Qed.

Lemma P_add_parameters_all instrs : P _ (add_parameters_all instrs).
Proof.
  induction instrs as [|i instrs IH]; simpl; [step|].
  step; [apply P_add_parameters | apply IH].
Qed.

Lemma P_first_moment : P _ first_moment.
Proof. unfold first_moment. repeat step. Qed.

Lemma P_last_moment : P _ last_moment.
Proof. unfold last_moment. repeat step. Qed.

Lemma P_update_instruction op rule : P _ (update_instruction op rule).
Proof.
  unfold update_instruction. step; [step|]. step; [step|].
  destruct a0; [|step]. step; [apply P_add_parameters|].
  destruct rule;
    repeat first [ apply P_earliest_appended | apply P_first_moment
                 | apply P_last_moment | step ].
Qed.

Lemma P_update_moment l index : P _ (update_moment l index).
Proof.
  unfold update_moment.
  repeat first [ apply P_add_parameters_all | step ].
Qed.

Lemma P_append_moment l : P _ (append_moment l).
Proof. unfold append_moment. step; [step|]. apply P_update_moment. Qed.

Lemma P_append_circuit_from ms : P _ (append_circuit_from ms).
Proof.
  induction ms as [|l ms IH]; simpl; [step|].
  repeat first [ apply P_append_moment | apply IH | step ].
Qed.

Lemma P_update_element e rule index : P _ (update_element e rule index).
Proof.
  destruct e; simpl.
  - apply P_update_instruction.
  - step; [apply P_update_moment | step].
  - step; [apply P_append_circuit_from | step].
  - step.
Qed.

Lemma P_update_loop es rule index : P _ (update_loop es rule index).
Proof.
  revert rule. induction es as [|e es IH]; intros rule; simpl; [step|].
  step; [apply P_update_element | apply IH].
Qed.

Lemma P_append_prelude es : P _ (append_prelude es).
Proof. unfold append_prelude. repeat step. Qed.

Lemma P_append_iterable es rule : P _ (append_iterable es rule).
Proof.
  unfold append_iterable, _update.
  repeat first [ apply P_append_prelude | apply P_update_loop | step ].
Qed.

Lemma P_append_unindexed first items rule :
  P _ (append_unindexed first items rule).
Proof.
  unfold append_unindexed, append_prelude_first, _update.
  repeat first [ apply P_update_loop | step ].
Qed.

Lemma P_append operation mp rule : P _ (append operation mp rule).
Proof.
  destruct operation; simpl;
    repeat first [ apply P_append_iterable | apply P_append_unindexed | step ].
Qed.

Lemma P_run_calls cs : P _ (run_calls cs).
Proof.
  induction cs as [|[[operation mp] rule] cs IH]; simpl; [step|].
  step; [apply P_append | apply IH].
Qed.

End methods.

(** ** Methods that move the state along a preorder *)
Section steps.
Context (R : relation world) `{!PreOrder R}.

Lemma steps_ret {A} (a : A) : steps R (mret a).
Proof. intros w. simpl. reflexivity. Qed.

Lemma steps_raise {A} e : steps R (@raise A e).
Proof. intros w. simpl. reflexivity. Qed.

Lemma steps_gets {A} (f : world → A) : steps R (gets f).
Proof. intros w. simpl. reflexivity. Qed.

Lemma steps_bind {A B} (m : M A) (f : A → M B) :
  steps R m → (∀ a, steps R (f a)) → steps R (m ≫= f).
Proof.
  intros Hm Hf w. rewrite run_bind.
  specialize (Hm w). destruct (m w) as [[a|e] w1]; simpl in *; [|done].
  etrans; [exact Hm | apply Hf].
Qed.

Lemma steps_deref l : steps R (deref l).
Proof. apply steps_bind; [apply steps_gets | intros; apply steps_ret]. Qed.

(** The four places where the class writes. *)
Hypothesis steps_moment_append : ∀ l op, steps R (moment_append l op).
Hypothesis steps_create_new_moment : ∀ op, steps R (_create_new_moment op).
Hypothesis steps_register : ∀ i k p, steps R (register i k p).
Hypothesis steps_insert_moment : ∀ k l, steps R (insert_moment k l).

Lemma steps_update_element e rule index :
  steps R (update_element e rule index).
Proof.
  apply (P_update_element (λ A, steps R)); intros;
    first [ apply steps_ret | apply steps_raise | by apply steps_bind
          | apply steps_gets | apply steps_deref | done ].
Qed.

Lemma steps_update_loop es rule index : steps R (update_loop es rule index).
Proof.
  apply (P_update_loop (λ A, steps R)); intros;
    first [ apply steps_ret | apply steps_raise | by apply steps_bind
          | apply steps_gets | apply steps_deref | done ].
Qed.

Lemma steps_append_prelude es : steps R (append_prelude es).
Proof.
  apply (P_append_prelude (λ A, steps R)); intros;
    first [ apply steps_ret | apply steps_raise | by apply steps_bind
          | apply steps_gets | apply steps_deref | done ].
Qed.

Lemma steps_append operation mp rule : steps R (append operation mp rule).
Proof.
  apply (P_append (λ A, steps R)); intros;
    first [ apply steps_ret | apply steps_raise | by apply steps_bind
          | apply steps_gets | apply steps_deref | done ].
Qed.

End steps.

(** * Invariant I1 *)

Lemma appendable_disjoint m op a :
  Moment.appendable m op = true → a ∈ m → disjoint_qubits op a.
Proof.
  unfold Moment.appendable, Moment.moment_qubits. intros Happ Ha q Hq Hqa.
  rewrite forallb_forall in Happ.
  specialize (Happ q (proj1 (list_elem_of_In _ _) Hq)).
  apply negb_true_iff, bool_decide_eq_false in Happ.
  apply Happ, list_elem_of_bind. eauto.
Qed.

Lemma disjoint_qubits_sym a b : disjoint_qubits a b → disjoint_qubits b a.
Proof. intros H q Hb Ha. exact (H q Ha Hb). Qed.

Lemma I1_nil : I1 [].
Proof. intros i j a b _ Hi. by rewrite lookup_nil in Hi. Qed.

Lemma I1_singleton op : I1 [op].
Proof.
  intros i j a b Hij Hi Hj.
  apply list_lookup_singleton_Some in Hi as [-> _].
  apply list_lookup_singleton_Some in Hj as [-> _]. done.
Qed.

Lemma I1_snoc m op : I1 m → Moment.appendable m op = true → I1 (m ++ [op]).
Proof.
  intros Hm Happ i j a b Hij Hi Hj.
  apply lookup_snoc_Some in Hi as [[Hil Hi]|[Hil ->]];
    apply lookup_snoc_Some in Hj as [[Hjl Hj]|[Hjl ->]].
  - by apply (Hm i j).
  - apply disjoint_qubits_sym, (appendable_disjoint m); [done|].
    by eapply list_elem_of_lookup_2.
  - apply (appendable_disjoint m); [done|]. by eapply list_elem_of_lookup_2.
  - lia.
Qed.

Lemma I1_moment_at h l : Forall I1 h → I1 (moment_at h l).
Proof.
  intros Hh. unfold moment_at. destruct (h !! l) as [m|] eqn:Hl; simpl.
  - by eapply Forall_lookup_1.
  - apply I1_nil.
Qed.

Lemma appendable_iff m op :
  Moment.appendable m op = true ↔ ∀ a, a ∈ m → disjoint_qubits op a.
Proof.
  split; [intros H a; by apply appendable_disjoint|].
  intros H. unfold Moment.appendable, Moment.moment_qubits.
  apply forallb_forall. intros q Hq%list_elem_of_In.
  apply negb_true_iff, bool_decide_eq_false.
  intros (a & Hqa & Ha)%list_elem_of_bind. exact (H a Ha q Hq Hqa).
Qed.

Lemma I1_cons a m :
  I1 (a :: m) ↔ (∀ b, b ∈ m → disjoint_qubits a b) ∧ I1 m.
Proof.
  split.
  - intros H. split.
    + intros b (j & Hj)%list_elem_of_lookup_1. by apply (H 0 (S j)).
    + intros i j x y Hij Hi Hj. apply (H (S i) (S j)); [lia|done..].
  - intros [Ha Hm] i j x y Hij Hi Hj.
    destruct i as [|i], j as [|j]; simpl in *; simplify_eq.
    + apply Ha. by eapply list_elem_of_lookup_2.
    + apply disjoint_qubits_sym, Ha. by eapply list_elem_of_lookup_2.
    + apply (Hm i j); [lia|done..].
Qed.

Lemma I1_check_spec m : I1_check m = true ↔ I1 m.
Proof.
  induction m as [|a m IH]; simpl.
  - split; [intros _; apply I1_nil | done].
  - rewrite andb_true_iff, I1_cons, appendable_iff, IH. done.
Qed.

#[global] Instance I1_dec m : Decision (I1 m).
Proof.
  refine (cast_if (decide (I1_check m = true))); by rewrite <- I1_check_spec.
Defined.

#[local] Instance keeps_I1_preorder : PreOrder keeps_I1.
Proof. split; unfold keeps_I1; [intros w | intros w1 w2 w3]; tauto. Qed.

Lemma keeps_I1_moment_append l op : steps keeps_I1 (moment_append l op).
Proof.
  intros w Hw. unfold moment_append, deref, store, Moment.append.
  rewrite !run_bind. simpl.
  destruct (Moment.appendable (moment_at (heap w) l) op) eqn:Happ; simpl;
    [|done].
  apply Forall_insert; [done|]. apply I1_snoc; [|done]. by apply I1_moment_at.
Qed.

Lemma keeps_I1_create_new_moment op : steps keeps_I1 (_create_new_moment op).
Proof.
  intros w Hw. unfold _create_new_moment, heap_I1. simpl.
  apply Forall_app. split; [done|]. apply Forall_singleton.
  destruct op; [apply I1_singleton | apply I1_nil].
Qed.

Lemma keeps_I1_register i k p : steps keeps_I1 (register i k p).
Proof.
  intros w Hw. unfold register. rewrite run_bind. simpl.
  repeat case_match; done.
Qed.

Lemma keeps_I1_insert_moment k l : steps keeps_I1 (insert_moment k l).
Proof. intros w Hw. done. Qed.

(** C3.  Whatever is appended under whatever rule, and whether the call
    returns or raises: if every moment object satisfied I1 before the
    call, every moment object satisfies it afterwards, in particular every
    moment of the circuit's sequence. *)
Theorem append_keeps_I1 (operation : operand) (mp : option mapping)
    (rule : option UpdateRule) (w : world) :
  Forall I1 (heap w) →
  Forall I1 (heap (append operation mp rule w).2) ∧
  ∀ l, l ∈ _moments (self (append operation mp rule w).2) →
       I1 (moment_at (heap (append operation mp rule w).2) l).
Proof.
  intros Hw.
  assert (Forall I1 (heap (append operation mp rule w).2)) as H.
  { apply (steps_append keeps_I1 keeps_I1_moment_append
             keeps_I1_create_new_moment keeps_I1_register
             keeps_I1_insert_moment operation mp rule w Hw). }
  split; [done|]. intros l _. by apply I1_moment_at.
Qed.

Lemma append_keeps_I1_witness :
  let w := {| self := __init__ 2 None INLINE; heap := [[instr 1 [0%Z]]] |} in
  let operation := OSeq [EMoment 0; EInstruction (instr 2 [1%Z]);
                         EInstruction (instr 3 [1%Z])] in
  Forall I1 (heap w) ∧
  Forall I1 (heap (append operation None None w).2) ∧
  moment_structure (append operation None None w).2
    = [[instr 1 [0%Z]; instr 2 [1%Z]]; [instr 3 [1%Z]]].
Proof.
  intros w operation.
  assert (Forall I1 (heap w)) as Hw by compute_done.
  split; [exact Hw|]. split; [|reflexivity].
  exact (proj1 (append_keeps_I1 operation None None w Hw)).
Defined.

(** * Earliest placement *)

(** C1.  Earliest on a 2-qubit circuit: [A] on qubit 0, then [C] on qubit
    0, then [B] on qubit 1.  Both moments accept [B], and the scan, which
    does not stop at the first, puts [B] into both: [B] ends up in two
    moments and the circuit counts four instructions for three appends. *)
Theorem earliest_places_in_every_accepting_moment :
  let A := instr 1 [0%Z] in
  let C := instr 2 [0%Z] in
  let B := instr 3 [1%Z] in
  let r := run_calls [append_op A; append_op C; append_op B] (fresh 2 EARLIEST) in
  r.1 = Return () ∧
  moment_structure r.2 = [[A; B]; [C; B]] ∧
  moment_structure r.2 ≠ [[A; B]; [C]] ∧
  num_gates r.2 = 4.
Proof. by vm_compute. Qed.

(** * Sub-circuits *)

(** C2.  [append] never reads [mapping]; a 3-qubit sub-circuit holding
    [H] on its qubit 0, appended to a 6-qubit circuit with the mapping
    [[2, 4, 5]], leaves the instruction on qubit 0 of the parent, in the
    very moment object of the sub-circuit. *)
Theorem append_circuit_ignores_mapping :
  (∀ operation mp rule w, append operation mp rule w = append operation None rule w) ∧
  let op := instr 1 [0%Z] in
  let sub := (append (OSingle (EInstruction op)) None None (fresh 3 EARLIEST)).2 in
  let parent := {| self := __init__ 6 None EARLIEST; heap := heap sub |} in
  let r := append (OSingle (ECircuit (self sub))) (Some (MapList [2; 4; 5]%Z))
             None parent in
  r.1 = Return () ∧
  moment_structure r.2 = [[op]] ∧
  qubits <$> instructions r.2 = [[0%Z]] ∧
  _moments (self r.2) = _moments (self sub).
Proof. split; [by intros []|]. by vm_compute. Qed.

(** * Appends that are refused or ignored *)

Lemma out_of_range_not_in_range n op :
  (∃ q, q ∈ qubits op ∧ (Z.of_nat n ≤ q)%Z) → instruction_in_range n op = false.
Proof.
  intros (q & Hq & Hle). unfold instruction_in_range.
  apply not_true_is_false. intros Hall. rewrite forallb_forall in Hall.
  specialize (Hall q (proj1 (list_elem_of_In _ _) Hq)). unfold in_range in Hall.
  apply andb_true_iff in Hall as [_ Hlt%bool_decide_eq_true]. lia.
Qed.

Lemma append_out_of_range_counterexample :
  let w := fresh 2 EARLIEST in
  let r := append (OSingle (EInstruction (instr 1 [5%Z]))) None None w in
  r.1 = Raise OutOfRangeResource ∧
  len (self w) = 0 ∧ len (self r.2) = 1 ∧
  _moments (self r.2) ≠ _moments (self w).
Proof. by vm_compute. Qed.

(** C4, as the code has it.  Appending one instruction with a qubit index
    [>= num_qubits] raises [OutOfRangeResource] and places nothing, and
    the parameter table is as before.  A circuit that had moments is left
    exactly as it was; a circuit without moments is left with one empty
    moment, the one [append] creates before it validates. *)
Theorem append_out_of_range (op : Instruction) (mp : option mapping)
    (rule : option UpdateRule) (w : world) :
  (∃ q, q ∈ qubits op ∧ (Z.of_nat (num_qubits (self w)) ≤ q)%Z) →
  let r := append (OSingle (EInstruction op)) mp rule w in
  r.1 = Raise OutOfRangeResource ∧
  instructions r.2 = instructions w ∧
  _parameter_table (self r.2) = _parameter_table (self w) ∧
  (_moments (self w) ≠ [] → r.2 = w) ∧
  (_moments (self w) = [] →
     _moments (self r.2) = [length (heap w)] ∧ heap r.2 = heap w ++ [[]] ∧
     len (self r.2) = 1).
Proof.
  intros Hout%out_of_range_not_in_range r. subst r.
  destruct w as [c h]. unfold num_qubits in *. simpl in *.
  unfold append, append_iterable, append_prelude, _update, update_loop,
    update_element, update_instruction, validate_operation_instruction.
  destruct (_moments c) as [|l ms] eqn:Hms.
  - mrun. rewrite Hms. mrun. rewrite Hout. mrun.
    split_and!; try done.
    + unfold instructions, moment_at. simpl. rewrite Hms. simpl.
      by rewrite lookup_app_r, Nat.sub_diag by done.
    + intros _. unfold len. simpl. by rewrite Hms.
  - mrun. rewrite Hms. mrun. rewrite Hout. mrun.
    split_and!; done.
Qed.

Lemma append_out_of_range_witness :
  let w := (run_calls [append_op (instr 1 [0%Z])] (fresh 2 EARLIEST)).2 in
  let r := append (OSingle (EInstruction (instr 2 [5%Z]))) None None w in
  r.1 = Raise OutOfRangeResource ∧ r.2 = w ∧ len (self r.2) = 1.
Proof.
  intros w r.
  assert (∃ q, q ∈ qubits (instr 2 [5%Z])
               ∧ (Z.of_nat (num_qubits (self w)) ≤ q)%Z) as Hout.
  { exists 5%Z. split; [compute_done | by vm_compute]. }
  destruct (append_out_of_range (instr 2 [5%Z]) None None w Hout)
    as (Hr & _ & _ & Hsame & _).
  split; [exact Hr|]. split; [|reflexivity]. apply Hsame. by vm_compute.
Defined.

Lemma update_loop_others es rule index w :
  Forall (λ e, e = EOther) es → update_loop es rule index w = (Return rule, w).
Proof.
  induction 1 as [|e es -> _ IH]; simpl; [done|].
  rewrite run_bind. simpl. exact IH.
Qed.

Lemma append_unsupported_counterexample :
  let w := fresh 2 EARLIEST in
  (append (OSingle EOther) None None w).1 ≠ Raise TypeMismatch ∧
  append (OSingle EOther) None None w = (Return (), w).
Proof. by vm_compute. Qed.

(** C9, as the code has it.  [append(None)] raises the type error and
    changes nothing; nothing else is tested for its type.  An object that
    is not iterable and is no instruction, moment or circuit, and a
    non-empty list or tuple of such objects, is skipped: the call returns
    without raising and changes nothing.  Another iterable of such
    objects (a set, a dict, an iterator) is skipped in the same way on a
    circuit that has a moment.  On a circuit without moments
    [operation[0]] is evaluated first: if it raises, the call raises that
    error and changes nothing; if it gives an instruction (a dict with
    one under the key [0]), the call returns and leaves one empty moment
    behind; if it gives anything else, the call returns and changes
    nothing. *)
Theorem append_none_or_unsupported (mp : option mapping)
    (rule : option UpdateRule) (w : world) :
  append ONone mp rule w = (Raise TypeMismatch, w) ∧
  append (OSingle EOther) mp rule w = (Return (), w) ∧
  (∀ es, es ≠ [] → Forall (λ e, e = EOther) es →
         append (OSeq es) mp rule w = (Return (), w)) ∧
  (∀ first items, Forall (λ e, e = EOther) items →
     let r := append (OIter first items) mp rule w in
     (_moments (self w) ≠ [] → r = (Return (), w)) ∧
     (_moments (self w) = [] →
        match first with
        | inl e => r = (Raise e, w)
        | inr (EInstruction _) =>
            r = (Return (),
                 with_moments [length (heap w)]
                   (with_heap (heap w ++ [[]]) w))
        | inr _ => r = (Return (), w)
        end)).
Proof.
  assert (∀ es, es ≠ [] → Forall (λ e, e = EOther) es →
            append (OSeq es) mp rule w = (Return (), w)) as Hseq.
  { intros es Hne Hes. unfold append, append_iterable, append_prelude, _update.
    destruct es as [|e es]; [done|].
    pose proof (Forall_inv Hes) as ->.
    apply Forall_inv_tail in Hes.
    mrun. case_bool_decide; mrun; by rewrite update_loop_others. }
  split; [done|]. split; [|split; [done|]].
  { exact (Hseq [EOther] ltac:(done) ltac:(by constructor)). }
  intros first items Hitems r. subst r.
  unfold append, append_unindexed, append_prelude_first, _update.
  split; intros Hms; mrun.
  - rewrite bool_decide_eq_false_2 by done. mrun.
    by rewrite update_loop_others.
  - rewrite Hms. simpl. destruct first as [e|[op|l|sub|]]; mrun;
      rewrite ?update_loop_others by done; [done| |done..].
    unfold _create_new_moment. mrun. by rewrite Hms.
Qed.

Lemma append_none_or_unsupported_witness :
  let A := instr 1 [0%Z] in
  let w := (run_calls [append_op A] (fresh 2 EARLIEST)).2 in
  let w0 := fresh 2 EARLIEST in
  append ONone None None w = (Raise TypeMismatch, w) ∧
  append (OSeq [EOther; EOther]) None (Some NEW) w = (Return (), w) ∧
  (* {1, 2} *)
  append (OIter (inl NotSubscriptable) [EOther; EOther]) None None w
    = (Return (), w) ∧
  append (OIter (inl NotSubscriptable) [EOther; EOther]) None None w0
    = (Raise NotSubscriptable, w0) ∧
  (* {} *)
  append (OIter (inl KeyError) []) None None w0 = (Raise KeyError, w0) ∧
  (* {0: A} *)
  moment_structure (append (OIter (inr (EInstruction A)) [EOther]) None None w0).2
    = [[]].
Proof.
  intros A w w0.
  destruct (append_none_or_unsupported None (Some NEW) w) as (_ & _ & Hseq & _).
  destruct (append_none_or_unsupported None None w) as (Hnone & _ & _ & Hiter).
  destruct (append_none_or_unsupported None None w0) as (_ & _ & _ & Hiter0).
  split; [exact Hnone|].
  split; [apply Hseq; [done | by repeat constructor]|].
  split.
  { apply (Hiter (inl NotSubscriptable) [EOther; EOther]);
      [by repeat constructor | by vm_compute]. }
  split.
  { apply (proj2 (Hiter0 (inl NotSubscriptable) [EOther; EOther]
                    ltac:(by repeat constructor))). reflexivity. }
  split.
  { apply (proj2 (Hiter0 (inl KeyError) [] ltac:(by constructor))).
    reflexivity. }
  pose proof (proj2 (Hiter0 (inr (EInstruction A)) [EOther]
                       ltac:(by repeat constructor)) eq_refl) as Hdict.
  cbv beta iota zeta in Hdict. rewrite Hdict. reflexivity.
Defined.

(** C10.  [append([])]: on a circuit without moments, reading
    [operation[0]] raises [IndexError], which is none of the circuit's own
    errors, and nothing changes; on a circuit with a moment the call
    returns and nothing changes. *)
Theorem append_empty_sequence (mp : option mapping) (rule : option UpdateRule)
    (w : world) :
  (_moments (self w) = [] → append (OSeq []) mp rule w = (Raise IndexError, w)) ∧
  (_moments (self w) ≠ [] → append (OSeq []) mp rule w = (Return (), w)).
Proof.
  unfold append, append_iterable, append_prelude, _update.
  mrun. split; intros Hms; case_bool_decide; done.
Qed.

Lemma append_empty_sequence_witness :
  let w1 := (run_calls [append_op (instr 1 [0%Z])] (fresh 2 EARLIEST)).2 in
  append (OSeq []) None None (fresh 2 EARLIEST)
    = (Raise IndexError, fresh 2 EARLIEST) ∧
  append (OSeq []) None None w1 = (Return (), w1).
Proof.
  intros w1. split.
  - apply (append_empty_sequence None None (fresh 2 EARLIEST)). reflexivity.
  - apply (append_empty_sequence None None w1). by vm_compute.
Defined.

(** * The parameter table *)

Lemma getitem_same_id tbl p q :
  param_id p = param_id q →
  ParameterTable.getitem tbl p = ParameterTable.getitem tbl q.
Proof.
  intros Hpq. induction tbl as [|[k bs] tbl IH]; simpl; [done|].
  unfold ParameterTable.same_param. rewrite IH, Hpq. done.
Qed.

Lemma getitem_setitem_eq tbl p bs :
  ParameterTable.getitem (ParameterTable.setitem tbl p bs) p = Some bs.
Proof.
  induction tbl as [|[k v] tbl IH]; simpl.
  - unfold ParameterTable.same_param. by rewrite bool_decide_eq_true_2.
  - destruct (ParameterTable.same_param k p) eqn:Hk; simpl; by rewrite Hk.
Qed.

Lemma getitem_setitem_ne tbl p q bs :
  param_id p ≠ param_id q →
  ParameterTable.getitem (ParameterTable.setitem tbl p bs) q
  = ParameterTable.getitem tbl q.
Proof.
  intros Hpq. induction tbl as [|[k v] tbl IH]; simpl.
  - unfold ParameterTable.same_param. by rewrite bool_decide_eq_false_2.
  - destruct (ParameterTable.same_param k p) eqn:Hk; simpl; [|by rewrite IH].
    apply bool_decide_eq_true in Hk. unfold ParameterTable.same_param.
    rewrite bool_decide_eq_false_2; [done | congruence].
Qed.

Lemma get_keys_setitem_present tbl p bs :
  is_Some (ParameterTable.getitem tbl p) →
  ParameterTable.get_keys (ParameterTable.setitem tbl p bs)
  = ParameterTable.get_keys tbl.
Proof.
  unfold ParameterTable.get_keys.
  induction tbl as [|[k v] tbl IH]; simpl; [by intros [? ?]|].
  destruct (ParameterTable.same_param k p); simpl; [done|].
  intros Hp. f_equal. by apply IH.
Qed.

Lemma setitem_absent tbl p bs :
  ParameterTable.getitem tbl p = None →
  ParameterTable.setitem tbl p bs = tbl ++ [(p, bs)].
Proof.
  induction tbl as [|[k v] tbl IH]; simpl; [done|].
  destruct (ParameterTable.same_param k p); [done|].
  intros H. by rewrite IH.
Qed.

Lemma contains_true tbl p :
  ParameterTable.contains tbl p = true ↔ is_Some (ParameterTable.getitem tbl p).
Proof. unfold ParameterTable.contains. apply bool_decide_eq_true. Qed.

Lemma contains_false tbl p :
  ParameterTable.contains tbl p = false ↔ ParameterTable.getitem tbl p = None.
Proof.
  unfold ParameterTable.contains.
  rewrite bool_decide_eq_false, eq_None_not_Some. done.
Qed.

Lemma check_dup_param_spec_true bs instruction slot :
  _check_dup_param_spec bs instruction slot = true ↔ recorded bs instruction slot.
Proof.
  unfold recorded. induction bs as [|b bs IH]; simpl.
  - split; [done|]. by intros (b & Hb%elem_of_nil & _).
  - destruct (bool_decide (instr_id b.1 = instr_id instruction)
              && bool_decide (b.2 = slot)) eqn:Hb.
    + split; [intros _|done]. exists b.
      apply andb_true_iff in Hb as [?%bool_decide_eq_true ?%bool_decide_eq_true].
      split; [left|done].
    + rewrite IH. split.
      * intros (b' & Hb' & ?). exists b'. split; [by right|done].
      * intros (b' & [->|Hb']%elem_of_cons & Hid & Hslot); [|by exists b'].
        rewrite !bool_decide_eq_true_2 in Hb by done. done.
Qed.

(** C5.  One registration [(param, instruction, slot)] on a table:
    - the parameter is present and the pair is not recorded: the pair is
      put at the end of its bindings, the keys and the other entries stay;
    - the parameter is present and the pair is recorded: nothing changes
      and nothing is raised;
    - the parameter is absent and a registered parameter has its display
      name: [NameConflict] is raised and nothing is recorded. *)
Theorem register_cases (instruction : Instruction) (slot : nat)
    (param : parameter) (w : world) :
  let tbl := _parameter_table (self w) in
  (∀ bs, ParameterTable.getitem tbl param = Some bs →
         ¬ recorded bs instruction slot →
         ∃ tbl',
           register instruction slot param w
             = (Return (), with_parameter_table tbl' w) ∧
           ParameterTable.getitem tbl' param = Some (bs ++ [(instruction, slot)]) ∧
           ParameterTable.get_keys tbl' = ParameterTable.get_keys tbl ∧
           ∀ q, param_id q ≠ param_id param →
                ParameterTable.getitem tbl' q = ParameterTable.getitem tbl q) ∧
  (∀ bs, ParameterTable.getitem tbl param = Some bs →
         recorded bs instruction slot →
         register instruction slot param w = (Return (), w)) ∧
  (ParameterTable.getitem tbl param = None →
   (∃ q, q ∈ ParameterTable.get_keys tbl ∧ param_id q ≠ param_id param
         ∧ param_name q = param_name param) →
   register instruction slot param w = (Raise NameConflict, w)).
Proof.
  intros tbl. unfold register. split_and!.
  - intros bs Hp Hrec. rewrite <- check_dup_param_spec_true in Hrec.
    apply not_true_is_false in Hrec.
    exists (ParameterTable.setitem tbl param (bs ++ [(instruction, slot)])).
    split_and!.
    + mrun. fold tbl. rewrite (proj2 (contains_true tbl param)) by by rewrite Hp.
      rewrite Hp. simpl. by rewrite Hrec.
    + apply getitem_setitem_eq.
    + apply get_keys_setitem_present. by rewrite Hp.
    + intros q Hq. apply getitem_setitem_ne. congruence.
  - intros bs Hp Hrec%check_dup_param_spec_true.
    mrun. fold tbl. rewrite (proj2 (contains_true tbl param)) by by rewrite Hp.
    rewrite Hp. simpl. by rewrite Hrec.
  - intros Hp (q & Hq & _ & Hname).
    mrun. fold tbl. rewrite (proj2 (contains_false tbl param)) by done.
    rewrite bool_decide_eq_true_2; [done|].
    unfold ParameterTable.get_names. rewrite <- Hname.
    by apply list_elem_of_fmap_2.
Qed.

Lemma register_cases_witness :
  let theta := {| param_id := 7; param_name := "theta" |} in
  let theta' := {| param_id := 8; param_name := "theta" |} in
  let D := {| instr_id := 1; gate := {| gate_name := "RX"; params := [Symbol theta] |};
              qubits := [0%Z] |} in
  let E := {| instr_id := 2; gate := {| gate_name := "RX"; params := [Symbol theta] |};
              qubits := [1%Z] |} in
  let F := {| instr_id := 3; gate := {| gate_name := "RX"; params := [Symbol theta'] |};
              qubits := [1%Z] |} in
  let w := (_add_parameters D (fresh 2 EARLIEST)).2 in
  _parameter_table (self w) = [(theta, [(D, 0)])] ∧
  (∃ tbl', register E 0 theta w = (Return (), with_parameter_table tbl' w)
           ∧ ParameterTable.getitem tbl' theta = Some [(D, 0); (E, 0)]) ∧
  register D 0 theta w = (Return (), w) ∧
  register F 0 theta' w = (Raise NameConflict, w).
Proof.
  intros theta theta' D E F w.
  destruct (register_cases E 0 theta w) as (Hnew & _ & _).
  destruct (register_cases D 0 theta w) as (_ & Hdup & _).
  destruct (register_cases F 0 theta' w) as (_ & _ & Hconflict).
  split; [reflexivity|]. split_and!.
  - destruct (Hnew [(D, 0)]) as (tbl' & Hrun & Hget & _); [reflexivity| |by eauto].
    rewrite <- check_dup_param_spec_true. by vm_compute.
  - apply (Hdup [(D, 0)]); [reflexivity|].
    apply check_dup_param_spec_true. by vm_compute.
  - apply Hconflict; [reflexivity|].
    exists theta. split_and!; [vm_compute; by left | by vm_compute | reflexivity].
Defined.

(** * Failure part-way through a sequence *)

#[local] Instance grows_preorder : PreOrder grows.
Proof.
  split.
  - intros w. split; [done|..].
    + intros l m Hl. exists []. by rewrite app_nil_r.
    + intros p bs Hp. exists []. by rewrite app_nil_r.
  - intros w1 w2 w3 [Hm12 Hh12 Ht12] [Hm23 Hh23 Ht23]. split.
    + by etrans.
    + intros l m Hl. destruct (Hh12 l m Hl) as [m' Hl'].
      destruct (Hh23 l _ Hl') as [m'' Hl'']. exists (m' ++ m'').
      by rewrite app_assoc.
    + intros p bs Hp. destruct (Ht12 p bs Hp) as [bs' Hp'].
      destruct (Ht23 p _ Hp') as [bs'' Hp'']. exists (bs' ++ bs'').
      by rewrite app_assoc.
Qed.

Lemma grows_moment_append l op : steps grows (moment_append l op).
Proof.
  intros w. unfold moment_append, Moment.append. mrun.
  destruct (Moment.appendable (moment_at (heap w) l) op); mrun; [|done].
  split; simpl; [done|..].
  - intros l' m Hl'. destruct (decide (l' = l)) as [->|Hne].
    + exists [op]. rewrite list_lookup_insert_eq by by eapply lookup_lt_Some.
      unfold moment_at. by rewrite Hl'.
    + exists []. by rewrite list_lookup_insert_ne, app_nil_r.
  - intros p bs Hp. exists []. by rewrite app_nil_r.
Qed.

Lemma grows_create_new_moment op : steps grows (_create_new_moment op).
Proof.
  intros w. unfold _create_new_moment. mrun. split; simpl.
  - by apply sublist_inserts_r.
  - intros l m Hl. exists []. rewrite app_nil_r. by apply lookup_app_l_Some.
  - intros p bs Hp. exists []. by rewrite app_nil_r.
Qed.

Lemma grows_register i k p : steps grows (register i k p).
Proof.
  intros w. unfold register. mrun.
  set (tbl := _parameter_table (self w)).
  assert (∀ v v', ParameterTable.getitem tbl p = v →
                  (∀ bs, v = Some bs → v' = bs ++ [(i, k)]) →
                  grows w (with_parameter_table (ParameterTable.setitem tbl p v') w))
    as Hset.
  { intros v v' Hv Hv'. split; simpl; [done| |].
    - intros l m Hl. exists []. by rewrite app_nil_r.
    - intros q bs Hq. fold tbl in Hq.
      destruct (decide (param_id p = param_id q)) as [Heq|Hne].
      + exists [(i, k)]. rewrite <- (getitem_same_id tbl p q Heq) in Hq.
        rewrite <- (getitem_same_id _ p q Heq), getitem_setitem_eq.
        f_equal. apply Hv'. congruence.
      + exists []. by rewrite getitem_setitem_ne, app_nil_r. }
  destruct (ParameterTable.contains tbl p) eqn:Hc.
  - apply contains_true in Hc as [bs Hbs]. rewrite Hbs. simpl.
    destruct (_check_dup_param_spec bs i k); simpl; [done|].
    apply (Hset (Some bs)); [done|]. by intros ? [= ->].
  - apply contains_false in Hc. case_bool_decide; simpl; [done|].
    apply (Hset None); [done|]. by intros ? [=].
Qed.

Lemma sublist_list_insert_at {A} k (x : A) xs :
  xs `sublist_of` list_insert_at k x xs.
Proof.
  unfold list_insert_at. rewrite <- (take_drop k xs) at 1.
  apply sublist_app; [done|]. by apply sublist_cons.
Qed.

Lemma grows_insert_moment k l : steps grows (insert_moment k l).
Proof.
  intros w. unfold insert_moment. mrun. split; simpl.
  - apply sublist_list_insert_at.
  - intros l' m Hl. exists []. by rewrite app_nil_r.
  - intros p bs Hp. exists []. by rewrite app_nil_r.
Qed.

Lemma grows_update_element x rule index :
  steps grows (update_element x rule index).
Proof.
  apply steps_update_element;
    first [ apply _ | apply grows_moment_append | apply grows_create_new_moment
          | apply grows_register | apply grows_insert_moment ].
Qed.

Lemma grows_update_loop es rule index : steps grows (update_loop es rule index).
Proof.
  apply steps_update_loop;
    first [ apply _ | apply grows_moment_append | apply grows_create_new_moment
          | apply grows_register | apply grows_insert_moment ].
Qed.

Lemma grows_append_prelude es : steps grows (append_prelude es).
Proof.
  apply steps_append_prelude;
    first [ apply _ | apply grows_moment_append | apply grows_create_new_moment
          | apply grows_register | apply grows_insert_moment ].
Qed.

Lemma update_loop_cons x es rule index w :
  update_loop (x :: es) rule index w =
  match update_element x rule index w with
  | (Return r1, w1) => update_loop es r1 index w1
  | (Raise e, w1) => (Raise e, w1)
  end.
Proof. reflexivity. Qed.

Lemma update_loop_app pre es rule index w :
  update_loop (pre ++ es) rule index w =
  match update_loop pre rule index w with
  | (Return r1, w1) => update_loop es r1 index w1
  | (Raise e, w1) => (Raise e, w1)
  end.
Proof.
  revert rule w. induction pre as [|x pre IH]; intros rule w; simpl; [done|].
  rewrite !run_bind.
  destruct (update_element x rule index w) as [[r|e] w']; [apply IH | done].
Qed.

(** C7.  [append] on a sequence whose element [x] raises after the
    elements [pre] before it were processed: the call raises that error,
    the state it leaves is the one the failing element left, nothing
    of what follows is looked at, and what the elements before it
    placed is kept: moments, their instructions and the parameters'
    bindings are still there. *)
Theorem append_sequence_not_atomic (pre : list element) (x : element)
    (post : list element) (mp : option mapping) (rule : option UpdateRule)
    (w w0 w1 w2 : world) (r1 : UpdateRule) (e : error) :
  append_prelude (pre ++ x :: post) w = (Return (), w0) →
  update_loop pre (default (update_rule (self w)) rule)
    (Z.of_nat (length (_moments (self w0)))) w0 = (Return r1, w1) →
  update_element x r1 (Z.of_nat (length (_moments (self w0)))) w1
    = (Raise e, w2) →
  append (OSeq (pre ++ x :: post)) mp rule w = (Raise e, w2) ∧
  grows w w1 ∧ grows w1 w2.
Proof.
  intros Hprelude Hpre Hx.
  pose proof grows_update_element as Hel.
  pose proof grows_update_loop as Hloop.
  pose proof grows_append_prelude as Hpl.
  split_and!.
  - unfold append, append_iterable, _update. mrun. rewrite Hprelude. mrun.
    rewrite update_loop_app, Hpre. simpl. rewrite run_bind, Hx. done.
  - etrans.
    + specialize (Hpl (pre ++ x :: post) w). by rewrite Hprelude in Hpl.
    + specialize (Hloop pre (default (update_rule (self w)) rule)
        (Z.of_nat (length (_moments (self w0)))) w0). by rewrite Hpre in Hloop.
  - specialize (Hel x r1 (Z.of_nat (length (_moments (self w0)))) w1).
    by rewrite Hx in Hel.
Qed.

Lemma append_sequence_not_atomic_witness :
  let A := instr 1 [0%Z] in
  let B := instr 2 [5%Z] in
  let C := instr 3 [1%Z] in
  let w := fresh 2 EARLIEST in
  let r := append (OSeq [EInstruction A; EInstruction B; EInstruction C])
             None None w in
  r.1 = Raise OutOfRangeResource ∧ moment_structure r.2 = [[A]].
Proof.
  intros A B C w r.
  pose (es := [EInstruction A; EInstruction B; EInstruction C]).
  pose (w0 := (append_prelude es w).2).
  pose (w1 := (update_loop [EInstruction A] EARLIEST 1 w0).2).
  destruct (append_sequence_not_atomic [EInstruction A] (EInstruction B)
              [EInstruction C] None None w w0 w1 w1 EARLIEST OutOfRangeResource)
    as (Hr & _ & _); [reflexivity..|].
  change (r = (Raise OutOfRangeResource, w1)) in Hr.
  rewrite Hr. split; reflexivity.
Defined.

(** * The rule NEW *)

Section new_rule.
Context (syms : list parameter).
Hypothesis syms_consistent :
  ∀ p q, p ∈ syms → q ∈ syms → param_name p = param_name q →
         param_id p = param_id q.

Lemma register_consistent i k p w :
  p ∈ syms →
  ParameterTable.get_keys (_parameter_table (self w)) ⊆ syms →
  ∃ tbl', register i k p w = (Return (), with_parameter_table tbl' w) ∧
          ParameterTable.get_keys tbl' ⊆ syms.
Proof.
  intros Hp Hkeys. unfold register. mrun.
  set (tbl := _parameter_table (self w)) in *.
  destruct (ParameterTable.contains tbl p) eqn:Hc.
  - apply contains_true in Hc as Hc'. destruct Hc' as [bs Hbs].
    rewrite Hbs. simpl.
    destruct (_check_dup_param_spec bs i k); simpl.
    + exists tbl. split; [|done]. by destruct w as [[] ?].
    + eexists. split; [done|]. by rewrite get_keys_setitem_present.
  - apply contains_false in Hc. rewrite bool_decide_eq_false_2.
    + eexists. split; [done|]. rewrite setitem_absent by done.
      unfold ParameterTable.get_keys in *. rewrite fmap_app. simpl.
      intros q [Hq|Hq%list_elem_of_singleton]%elem_of_app; [by apply Hkeys|].
      by subst.
    + unfold ParameterTable.get_names.
      intros (q & Hname & Hq)%list_elem_of_fmap.
      assert (param_id q = param_id p) as Hid.
      { apply syms_consistent; [by apply Hkeys | done | done]. }
      assert (is_Some (ParameterTable.getitem tbl q)) as [bs Hbs].
      { clear -Hq. unfold ParameterTable.get_keys in Hq.
        induction tbl as [|[k' v] tbl IH]; simpl in *; [by apply elem_of_nil in Hq|].
        apply elem_of_cons in Hq as [->|Hq].
        - unfold ParameterTable.same_param. by rewrite bool_decide_eq_true_2.
        - destruct (ParameterTable.same_param k' q); [done | by apply IH]. }
      rewrite (getitem_same_id tbl q p Hid) in Hbs. congruence.
Qed.

Lemma add_parameters_from_consistent i k ps w :
  (∀ p, Symbol p ∈ ps → p ∈ syms) →
  ParameterTable.get_keys (_parameter_table (self w)) ⊆ syms →
  ∃ tbl', add_parameters_from i k ps w
            = (Return (), with_parameter_table tbl' w) ∧
          ParameterTable.get_keys tbl' ⊆ syms.
Proof.
  revert k w. induction ps as [|gp ps IH]; intros k w Hps Hkeys; simpl.
  - exists (_parameter_table (self w)). split; [|done]. by destruct w as [[] ?].
  - destruct gp as [v|p].
    + apply IH; [|done]. intros p Hp. apply Hps. by right.
    + destruct (register_consistent i k p w) as (tbl1 & Hrun & Hkeys1);
        [apply Hps; by left | done |].
      rewrite run_bind, Hrun.
      destruct (IH (S k) (with_parameter_table tbl1 w)) as (tbl2 & Hrun2 & Hkeys2);
        [intros q Hq; apply Hps; by right | done |].
      exists tbl2. by rewrite Hrun2.
Qed.

Lemma add_parameters_consistent op w :
  symbols_of op ⊆ syms →
  ParameterTable.get_keys (_parameter_table (self w)) ⊆ syms →
  ∃ tbl', _add_parameters op w = (Return (), with_parameter_table tbl' w) ∧
          ParameterTable.get_keys tbl' ⊆ syms.
Proof.
  intros Hop. apply add_parameters_from_consistent.
  intros p Hp. apply Hop. unfold symbols_of.
  apply list_elem_of_omap. by exists (Symbol p).
Qed.

Lemma appendable_nil op : Moment.appendable [] op = true.
Proof. apply appendable_iff. by intros a Ha%elem_of_nil. Qed.

(** The first instruction goes into the moment that [append] has just
    created. *)
Lemma update_instruction_new_first c0 h0 tbl op :
  instruction_in_range (length (_qubits c0)) op = true →
  symbols_of op ⊆ syms →
  ParameterTable.get_keys tbl ⊆ syms →
  ∃ tbl',
    update_instruction op NEW
      {| self := {| _qubits := _qubits c0; _moments := [length h0];
                    name := name c0; update_rule := update_rule c0;
                    _parameter_table := tbl |};
         heap := h0 ++ [[]] |}
    = (Return NEW, one_moment_each c0 h0 [op] tbl') ∧
    ParameterTable.get_keys tbl' ⊆ syms.
Proof.
  intros Hrange Hop Hkeys.
  set (w := {| self := _; heap := _ |}).
  destruct (add_parameters_consistent op w Hop Hkeys) as (tbl' & Hadd & Hkeys').
  exists tbl'. split; [|done].
  unfold update_instruction, validate_operation_instruction. mrun.
  rewrite Hrange. mrun. rewrite Hadd.
  unfold first_moment, moment_append, Moment.append. mrun.
  unfold moment_at. rewrite lookup_app_r, Nat.sub_diag by done. simpl.
  mrun. rewrite lookup_app_r, Nat.sub_diag by done. simpl.
  rewrite appendable_nil. mrun.
  unfold one_moment_each. simpl. do 2 f_equal.
  rewrite insert_app_r_alt, Nat.sub_diag by done. done.
Qed.

(** Every later instruction gets a moment of its own. *)
Lemma update_instruction_new_next c0 h0 placed tbl op :
  placed ≠ [] →
  instruction_in_range (length (_qubits c0)) op = true →
  symbols_of op ⊆ syms →
  ParameterTable.get_keys tbl ⊆ syms →
  ∃ tbl',
    update_instruction op NEW (one_moment_each c0 h0 placed tbl)
    = (Return NEW, one_moment_each c0 h0 (placed ++ [op]) tbl') ∧
    ParameterTable.get_keys tbl' ⊆ syms.
Proof.
  intros Hplaced Hrange Hop Hkeys.
  destruct (add_parameters_consistent op (one_moment_each c0 h0 placed tbl)
              Hop Hkeys) as (tbl' & Hadd & Hkeys').
  exists tbl'. split; [|done].
  unfold update_instruction, validate_operation_instruction. mrun.
  rewrite Hrange. mrun. rewrite Hadd.
  assert (seq (length h0) (length placed)
            ++ [length (h0 ++ ((λ op, [op]) <$> placed))]
          = seq (length h0) (length (placed ++ [op]))) as Hmoments.
  { rewrite !length_app, length_fmap, seq_app. done. }
  assert ((h0 ++ ((λ op, [op]) <$> placed)) ++ [[op]]
          = h0 ++ ((λ op, [op]) <$> placed ++ [op])) as Hheap.
  { by rewrite fmap_app, <- app_assoc. }
  remember (one_moment_each c0 h0 (placed ++ [op]) tbl') as target eqn:Ht.
  unfold one_moment_each in Ht. rewrite <- Hmoments, <- Hheap in Ht.
  destruct placed as [|d placed]; [done|].
  unfold first_moment, _create_new_moment. mrun.
  unfold moment_at. rewrite lookup_app_r, Nat.sub_diag by done. simpl.
  by subst target.
Qed.

Lemma update_loop_new c0 h0 index ops placed tbl :
  placed ≠ [] →
  Forall (λ op, instruction_in_range (length (_qubits c0)) op = true) ops →
  ops ≫= symbols_of ⊆ syms →
  ParameterTable.get_keys tbl ⊆ syms →
  ∃ tbl',
    update_loop (EInstruction <$> ops) NEW index
      (one_moment_each c0 h0 placed tbl)
    = (Return NEW, one_moment_each c0 h0 (placed ++ ops) tbl') ∧
    ParameterTable.get_keys tbl' ⊆ syms.
Proof.
  intros Hplaced Hrange. revert placed tbl Hplaced.
  induction Hrange as [|op ops Hop _ IH]; intros placed tbl Hplaced Hsyms Hkeys.
  - exists tbl. by rewrite app_nil_r.
  - simpl in Hsyms.
    assert (symbols_of op ⊆ syms) as Hsyms1.
    { intros p Hp. apply Hsyms, elem_of_app. by left. }
    assert (ops ≫= symbols_of ⊆ syms) as Hsyms2.
    { intros p Hp. apply Hsyms, elem_of_app. by right. }
    destruct (update_instruction_new_next c0 h0 placed tbl op Hplaced Hop
                Hsyms1 Hkeys) as (tbl1 & Hrun & Hkeys1).
    destruct (IH (placed ++ [op]) tbl1) as (tbl2 & Hrun2 & Hkeys2);
      [by intros [_ [=]]%app_eq_nil | done | done |].
    exists tbl2. split; [|done].
    rewrite fmap_cons, update_loop_cons.
    change (update_element (EInstruction op) NEW index)
      with (update_instruction op NEW).
    rewrite Hrun, Hrun2. by rewrite <- app_assoc.
Qed.

Lemma moment_structure_one_moment_each c0 h0 placed tbl :
  moment_structure (one_moment_each c0 h0 placed tbl) = (λ op, [op]) <$> placed ∧
  length (_moments (self (one_moment_each c0 h0 placed tbl))) = length placed.
Proof.
  split; [|by simpl; rewrite length_seq].
  unfold moment_structure, one_moment_each. simpl.
  apply list_eq. intros i. rewrite !list_lookup_fmap.
  destruct (decide (i < length placed)) as [Hi|Hi].
  - rewrite lookup_seq_lt by done. simpl. unfold moment_at.
    rewrite lookup_app_r by lia.
    replace (length h0 + i - length h0) with i by lia.
    rewrite list_lookup_fmap.
    destruct (lookup_lt_is_Some_2 placed i Hi) as [op Hop]. by rewrite Hop.
  - rewrite lookup_seq_ge by lia. simpl.
    by rewrite lookup_ge_None_2 by lia.
Qed.

Lemma append_new_first c0 h0 op ops mp rule :
  _moments c0 = [] →
  default (update_rule c0) rule = NEW →
  Forall (λ op, instruction_in_range (length (_qubits c0)) op = true)
         (op :: ops) →
  (op :: ops) ≫= symbols_of ⊆ syms →
  ParameterTable.get_keys (_parameter_table c0) ⊆ syms →
  ∃ tbl',
    append (OSeq (EInstruction <$> op :: ops)) mp rule {| self := c0; heap := h0 |}
    = (Return (), one_moment_each c0 h0 (op :: ops) tbl') ∧
    ParameterTable.get_keys tbl' ⊆ syms.
Proof.
  intros Hms Hrule Hrange Hsyms Hkeys. simpl in Hsyms.
  assert (symbols_of op ⊆ syms) as Hsyms1.
  { intros p Hp. apply Hsyms, elem_of_app. by left. }
  assert (ops ≫= symbols_of ⊆ syms) as Hsyms2.
  { intros p Hp. apply Hsyms, elem_of_app. by right. }
  destruct (update_instruction_new_first c0 h0 (_parameter_table c0) op)
    as (tbl1 & Hrun1 & Hkeys1); [exact (Forall_inv Hrange) | done | done |].
  destruct (update_loop_new c0 h0 (Z.of_nat 1) ops [op] tbl1)
    as (tbl2 & Hrun2 & Hkeys2); [done | exact (Forall_inv_tail Hrange) | done..|].
  exists tbl2. split; [|done].
  unfold append, append_iterable, append_prelude, _update, _create_new_moment.
  rewrite fmap_cons. mrun. rewrite Hrule, !Hms. mrun. rewrite !Hms. simpl.
  rewrite Hrun1, Hrun2. done.
Qed.

Lemma append_new_next c0 h0 placed tbl ops mp rule :
  placed ≠ [] →
  default (update_rule c0) rule = NEW →
  Forall (λ op, instruction_in_range (length (_qubits c0)) op = true) ops →
  ops ≫= symbols_of ⊆ syms →
  ParameterTable.get_keys tbl ⊆ syms →
  ∃ tbl',
    append (OSeq (EInstruction <$> ops)) mp rule (one_moment_each c0 h0 placed tbl)
    = (Return (), one_moment_each c0 h0 (placed ++ ops) tbl') ∧
    ParameterTable.get_keys tbl' ⊆ syms.
Proof.
  intros Hplaced Hrule Hrange Hsyms Hkeys.
  destruct (update_loop_new c0 h0
              (Z.of_nat (length (seq (length h0) (length placed))))
              ops placed tbl)
    as (tbl2 & Hrun2 & Hkeys2); [done..|].
  exists tbl2. split; [|done].
  unfold append, append_iterable, append_prelude, _update.
  mrun. rewrite Hrule.
  rewrite bool_decide_eq_false_2.
  - mrun. by rewrite Hrun2.
  - destruct placed; [done|]. simpl. done.
Qed.

Lemma run_calls_new_next c0 h0 mp rule ops : ∀ placed tbl,
  placed ≠ [] →
  default (update_rule c0) rule = NEW →
  Forall (λ op, instruction_in_range (length (_qubits c0)) op = true) ops →
  ops ≫= symbols_of ⊆ syms →
  ParameterTable.get_keys tbl ⊆ syms →
  ∃ tbl',
    run_calls ((λ op, (OSingle (EInstruction op), mp, rule)) <$> ops)
      (one_moment_each c0 h0 placed tbl)
    = (Return (), one_moment_each c0 h0 (placed ++ ops) tbl') ∧
    ParameterTable.get_keys tbl' ⊆ syms.
Proof.
  induction ops as [|op ops IH]; intros placed tbl Hplaced Hrule Hrange Hsyms Hkeys.
  - exists tbl. by rewrite app_nil_r.
  - simpl in Hsyms.
    assert ([op] ≫= symbols_of ⊆ syms) as Hsyms1.
    { intros p Hp. apply Hsyms, elem_of_app. left.
      simpl in Hp. by rewrite app_nil_r in Hp. }
    assert (ops ≫= symbols_of ⊆ syms) as Hsyms2.
    { intros p Hp. apply Hsyms, elem_of_app. by right. }
    destruct (append_new_next c0 h0 placed tbl [op] mp rule)
      as (tbl1 & Hrun1 & Hkeys1);
      [done | done | by constructor; [exact (Forall_inv Hrange)|] | done | done |].
    destruct (IH (placed ++ [op]) tbl1) as (tbl2 & Hrun2 & Hkeys2);
      [by intros [_ [=]]%app_eq_nil | done | exact (Forall_inv_tail Hrange)
      | done | done |].
    exists tbl2. split; [|done].
    rewrite fmap_cons. cbn [run_calls]. rewrite run_bind.
    change (append (OSingle (EInstruction op)) mp rule)
      with (append (OSeq (EInstruction <$> [op])) mp rule).
    rewrite Hrun1, Hrun2. by rewrite <- app_assoc.
Qed.

End new_rule.

(** C8.  A circuit just constructed, appended to under NEW (given with
    the call, or as the circuit's default), with [N > 1] instructions
    that are within range and whose parameters are valid together: the
    circuit has [N] moments afterwards and the k-th holds exactly the k-th
    instruction.  This holds both for one call per instruction and for one
    call with the list of the instructions. *)
Theorem new_rule_one_moment_each (n : Z) (nm : option string)
    (r0 : UpdateRule) (rule : option UpdateRule) (h : list Moment.t)
    (ops : list Instruction) :
  1 < length ops →
  default r0 rule = NEW →
  Forall (λ op, instruction_in_range (Z.abs_nat n) op = true) ops →
  names_consistent ops →
  let w := {| self := __init__ n nm r0; heap := h |} in
  let one_by_one :=
    run_calls ((λ op, (OSingle (EInstruction op), None, rule)) <$> ops) w in
  let at_once := append (OSeq (EInstruction <$> ops)) None rule w in
  (one_by_one.1 = Return () ∧
   len (self one_by_one.2) = length ops ∧
   moment_structure one_by_one.2 = (λ op, [op]) <$> ops) ∧
  (at_once.1 = Return () ∧
   len (self at_once.2) = length ops ∧
   moment_structure at_once.2 = (λ op, [op]) <$> ops).
Proof.
  intros Hlen Hrule Hrange Hnames w one_by_one at_once.
  set (c0 := __init__ n nm r0) in *.
  assert (length (_qubits c0) = Z.abs_nat n) as Hq by apply length_seq.
  rewrite <- Hq in Hrange.
  destruct ops as [|op ops]; [simpl in Hlen; lia|].
  pose proof (moment_structure_one_moment_each c0 h) as Hshape.
  split.
  - destruct (append_new_first ((op :: ops) ≫= symbols_of) Hnames c0 h op []
                None rule) as (tbl1 & Hrun1 & Hkeys1);
      [done | done | by constructor; [exact (Forall_inv Hrange)|]
      | by intros p Hp; simpl in *; rewrite app_nil_r in Hp; apply elem_of_app; left
      | by intros p Hp%elem_of_nil |].
    destruct (run_calls_new_next ((op :: ops) ≫= symbols_of) Hnames c0 h None
                rule ops [op] tbl1) as (tbl2 & Hrun2 & Hkeys2);
      [done | done | exact (Forall_inv_tail Hrange)
      | by intros p Hp; simpl; apply elem_of_app; right | done |].
    assert (one_by_one = (Return (), one_moment_each c0 h (op :: ops) tbl2)) as ->.
    { subst one_by_one. rewrite fmap_cons. cbn [run_calls]. rewrite run_bind.
      change (append (OSingle (EInstruction op)) None rule)
        with (append (OSeq (EInstruction <$> [op])) None rule).
      fold c0. subst w. rewrite Hrun1. exact Hrun2. }
    destruct (Hshape (op :: ops) tbl2) as [Hms Hl]. done.
  - destruct (append_new_first ((op :: ops) ≫= symbols_of) Hnames c0 h op ops
                None rule) as (tbl1 & Hrun1 & Hkeys1);
      [done | done | done | done | by intros p Hp%elem_of_nil |].
    subst at_once w. rewrite Hrun1.
    destruct (Hshape (op :: ops) tbl1) as [Hms Hl]. done.
Qed.

Lemma new_rule_one_moment_each_witness :
  let theta := {| param_id := 7; param_name := "theta" |} in
  let A := instr 1 [0%Z] in
  let B := {| instr_id := 2;
              gate := {| gate_name := "RX"; params := [Symbol theta] |};
              qubits := [1%Z] |} in
  let C := instr 3 [2%Z] in
  let w := {| self := __init__ 3 None NEW; heap := [] |} in
  let r := run_calls [append_op A; append_op B; append_op C] w in
  r.1 = Return () ∧ len (self r.2) = 3 ∧ moment_structure r.2 = [[A]; [B]; [C]].
Proof.
  intros theta A B C w r.
  assert (names_consistent [A; B; C]) as Hnames.
  { intros p q Hp Hq _.
    apply (list_elem_of_singleton p theta) in Hp.
    apply (list_elem_of_singleton q theta) in Hq. by subst. }
  assert (Forall (λ op, instruction_in_range (Z.abs_nat 3) op = true) [A; B; C])
    as Hrange by (by repeat constructor).
  assert (1 < length [A; B; C]) as Hlen by (simpl; lia).
  exact (proj1 (new_rule_one_moment_each 3 None NEW None [] [A; B; C]
                  Hlen eq_refl Hrange Hnames)).
Defined.

(** * What registration touches *)

Lemma with_parameter_table_id w :
  with_parameter_table (_parameter_table (self w)) w = w.
Proof. by destruct w as [[] ?]. Qed.

Lemma register_frame i k p w :
  ∃ tbl', (register i k p w).2 = with_parameter_table tbl' w ∧
          ((register i k p w).1 = Return () ∨
           (register i k p w).1 = Raise NameConflict).
Proof.
  unfold register. mrun.
  repeat (cbv zeta; case_match); simpl;
    first [ eexists; split; [reflexivity | by left]
          | exists (_parameter_table (self w));
            split; [by destruct w as [[] ?] | by eauto] ].
Qed.

Lemma add_parameters_from_frame i k ps w :
  ∃ tbl', (add_parameters_from i k ps w).2 = with_parameter_table tbl' w ∧
          ((add_parameters_from i k ps w).1 = Return () ∨
           (add_parameters_from i k ps w).1 = Raise NameConflict).
Proof.
  revert k w. induction ps as [|[v|p] ps IH]; intros k w; simpl.
  - eexists. split; [symmetry; apply with_parameter_table_id | by left].
  - apply IH.
  - rewrite run_bind.
    destruct (register_frame i k p w) as (tbl1 & Hw1 & Ho1).
    destruct (register i k p w) as [[[]|e] w1]; simpl in *; subst w1.
    + destruct (IH (S k) (with_parameter_table tbl1 w)) as (tbl2 & Hw2 & Ho2).
      exists tbl2. by rewrite Hw2.
    + exists tbl1. split; [done | exact Ho1].
Qed.

Lemma add_parameters_frame instr w :
  ∃ tbl', (_add_parameters instr w).2 = with_parameter_table tbl' w ∧
          ((_add_parameters instr w).1 = Return () ∨
           (_add_parameters instr w).1 = Raise NameConflict).
Proof. apply add_parameters_from_frame. Qed.

(** Of the state that the methods read, [_add_parameters] writes the
    parameter table and nothing else: the moments, the moment objects,
    the qubits, the name and the default rule of the circuit are as
    before, whether it returns or raises; and the only error it raises
    is the name conflict. *)
Theorem add_parameters_only_writes_table (instruction : Instruction)
    (w : world) :
  let r := _add_parameters instruction w in
  _moments (self r.2) = _moments (self w) ∧
  heap r.2 = heap w ∧
  _qubits (self r.2) = _qubits (self w) ∧
  name (self r.2) = name (self w) ∧
  update_rule (self r.2) = update_rule (self w) ∧
  (r.1 = Return () ∨ r.1 = Raise NameConflict).
Proof.
  intros r. destruct (add_parameters_frame instruction w) as (tbl' & Hw & Ho).
  subst r. rewrite Hw. done.
Qed.

(** * What no append changes *)

#[local] Instance same_attributes_preorder : PreOrder same_attributes.
Proof.
  split; [by intros w|].
  intros w1 w2 w3 (? & ? & ?) (? & ? & ?). unfold same_attributes.
  split_and!; congruence.
Qed.

(** Whatever is appended under whatever rule, the qubits of the circuit,
    its name and its default rule stay: the switch from NEW_THEN_INLINE to
    INLINE is local to a call. *)
Theorem append_keeps_attributes (operation : operand) (mp : option mapping)
    (rule : option UpdateRule) (w : world) :
  same_attributes w (append operation mp rule w).2.
Proof.
  apply steps_append; [apply _|..].
  - intros l op w'. unfold moment_append, Moment.append. mrun.
    by destruct (Moment.appendable _ _).
  - by intros op w'.
  - intros i k p w'. destruct (register_frame i k p w') as (tbl' & -> & _). done.
  - by intros k l w'.
Qed.

(** Whatever is appended, returning or raising: no moment leaves the
    sequence or changes its place relative to another, no moment object
    loses an instruction or has one put before those it held, and no
    parameter loses a binding. *)
Theorem append_only_grows (operation : operand) (mp : option mapping)
    (rule : option UpdateRule) (w : world) :
  grows w (append operation mp rule w).2.
Proof.
  apply steps_append;
    first [ apply _ | apply grows_moment_append | apply grows_create_new_moment
          | apply grows_register | apply grows_insert_moment ].
Qed.

(** * Invariant I2 *)

Lemma getitem_None_ids tbl p :
  ParameterTable.getitem tbl p = None ↔
  param_id p ∉ param_id <$> ParameterTable.get_keys tbl.
Proof.
  unfold ParameterTable.get_keys.
  induction tbl as [|[q bs] tbl IH]; simpl.
  - split; [intros _ []%elem_of_nil | done].
  - unfold ParameterTable.same_param. rewrite not_elem_of_cons.
    case_bool_decide as Hq; simpl.
    + split; [done|]. intros [Hne _]. congruence.
    + rewrite IH. split; [intros ?; split; [congruence | done] | by intros [_ ?]].
Qed.

#[local] Instance keeps_I2_preorder : PreOrder keeps_I2.
Proof. split; unfold keeps_I2; [intros w | intros w1 w2 w3]; tauto. Qed.

Lemma keeps_I2_register i k p : steps keeps_I2 (register i k p).
Proof.
  intros w [Hnames Hids]. unfold register. mrun.
  set (tbl := _parameter_table (self w)) in *.
  destruct (ParameterTable.contains tbl p) eqn:Hc.
  - apply contains_true in Hc.
    destruct (negb _); simpl; [|done].
    unfold I2, ParameterTable.get_names.
    by rewrite get_keys_setitem_present.
  - apply contains_false in Hc. case_bool_decide as Hname; simpl; [done|].
    rewrite setitem_absent by done.
    unfold I2, ParameterTable.get_names, ParameterTable.get_keys in *.
    rewrite !fmap_app. simpl. split.
    + apply NoDup_app. split_and!; [done| |apply NoDup_singleton].
      intros x Hx ->%list_elem_of_singleton. done.
    + apply NoDup_app. split_and!; [done| |apply NoDup_singleton].
      intros x Hx ->%list_elem_of_singleton.
      by apply (getitem_None_ids tbl p).
Qed.

(** Whatever is appended, returning or raising: a parameter table in
    which no two entries share a display name and no parameter has two
    entries is still such a table afterwards. *)
Theorem append_keeps_I2 (operation : operand) (mp : option mapping)
    (rule : option UpdateRule) (w : world) :
  I2 (_parameter_table (self w)) →
  I2 (_parameter_table (self (append operation mp rule w).2)).
Proof.
  apply (steps_append keeps_I2); [| |apply keeps_I2_register|].
  - intros l op w'. unfold keeps_I2, moment_append, Moment.append. mrun.
    by destruct (Moment.appendable _ _).
  - intros op w' HI2. exact HI2.
  - intros k l w' HI2. exact HI2.
Qed.

Lemma append_keeps_I2_witness :
  let theta := {| param_id := 7; param_name := "theta" |} in
  let phi := {| param_id := 8; param_name := "phi" |} in
  let D := {| instr_id := 1;
              gate := {| gate_name := "U2"; params := [Symbol theta; Symbol phi] |};
              qubits := [0%Z] |} in
  let w := fresh 2 EARLIEST in
  let r := append (OSingle (EInstruction D)) None None w in
  ParameterTable.get_names (_parameter_table (self r.2)) = ["theta"; "phi"] ∧
  I2 (_parameter_table (self r.2)).
Proof.
  intros theta phi D w r. split; [reflexivity|].
  apply (append_keeps_I2 (OSingle (EInstruction D)) None None w).
  split; apply NoDup_nil; done.
Defined.

(** * Counting *)

(** [num_gates()] is the sum of the numbers of instructions of the
    moments, a moment counted once for each place it has in the
    sequence. *)
Theorem num_gates_sum (w : world) :
  num_gates w = sum_list (length <$> moment_structure w).
Proof.
  unfold num_gates, instructions, moment_structure.
  induction (_moments (self w)) as [|l ms IH]; [done|].
  rewrite bind_cons, length_app, !fmap_cons, IH. done.
Qed.

(** * Where a moment is inserted *)

(** The position [k] that [_update] computes from [index] for a list of
    [len] moments lies within [0, len]: an index within that range is
    kept, a larger one gives the end, a negative one counts from the end
    and gives the front when it reaches before it.  Inserting there puts
    the moment at position [k] and makes the list one longer. *)
Theorem insert_position (index : Z) (ms : list loc) (l : loc) :
  let k := clamp_index index (length ms) in
  k ≤ length ms ∧
  list_insert_at k l ms !! k = Some l ∧
  length (list_insert_at k l ms) = S (length ms) ∧
  ((0 ≤ index ≤ Z.of_nat (length ms))%Z → k = Z.to_nat index) ∧
  ((Z.of_nat (length ms) ≤ index)%Z → k = length ms) ∧
  ((index < 0)%Z → Z.of_nat k = Z.max 0 (Z.of_nat (length ms) + index)).
Proof.
  intros k.
  assert (k ≤ length ms) as Hk.
  { subst k. unfold clamp_index. case_bool_decide; lia. }
  split_and!; [done|..].
  - unfold list_insert_at. rewrite lookup_app_r by (rewrite length_take; lia).
    rewrite length_take_le by done. by rewrite Nat.sub_diag.
  - unfold list_insert_at. rewrite length_app. simpl.
    rewrite length_take_le, length_drop by done. lia.
  - intros Hi. subst k. unfold clamp_index.
    rewrite bool_decide_eq_true_2 by lia. lia.
  - intros Hi. subst k. unfold clamp_index.
    rewrite bool_decide_eq_true_2 by lia. lia.
  - intros Hi. subst k. unfold clamp_index.
    rewrite bool_decide_eq_false_2 by lia. lia.
Qed.

Lemma insert_position_witness :
  clamp_index (-1) (length [10; 11; 12]) = 2 ∧
  list_insert_at (clamp_index (-1) 3) 99 [10; 11; 12] = [10; 11; 99; 12] ∧
  clamp_index (-7) (length [10; 11; 12]) = 0.
Proof.
  pose proof (insert_position (-1) [10; 11; 12] 99) as H1.
  pose proof (insert_position (-7) [10; 11; 12] 99) as H2.
  cbv zeta in H1, H2.
  destruct H1 as (_ & _ & _ & _ & _ & H1). destruct H2 as (_ & _ & _ & _ & _ & H2).
  assert (-1 < 0)%Z as Hneg1 by lia. assert (-7 < 0)%Z as Hneg7 by lia.
  specialize (H1 Hneg1). specialize (H2 Hneg7).
  split_and!; [|reflexivity|]; apply Nat2Z.inj.
  - rewrite H1. reflexivity.
  - rewrite H2. reflexivity.
Defined.

(** * Placing one instruction *)

Lemma update_instruction_place op rule w tbl' :
  instruction_in_range (num_qubits (self w)) op = true →
  _add_parameters op w = (Return (), with_parameter_table tbl' w) →
  update_instruction op rule w = place op rule (with_parameter_table tbl' w).
Proof.
  intros Hrange Hadd.
  change (update_instruction op rule w)
    with ((n ← get_num_qubits;
           ok ← lift (validate_operation_instruction op n);
           if ok : bool then _add_parameters op;; place op rule
           else mret rule) w).
  unfold validate_operation_instruction.
  rewrite run_bind. unfold get_num_qubits, gets. rewrite Hrange.
  rewrite run_bind. unfold lift. simpl. rewrite run_bind, Hadd. done.
Qed.

Lemma add_parameters_returns op w :
  (_add_parameters op w).1 = Return () →
  ∃ tbl', _add_parameters op w = (Return (), with_parameter_table tbl' w).
Proof.
  intros Hret. destruct (add_parameters_frame op w) as (tbl' & Hw & _).
  exists tbl'. destruct (_add_parameters op w) as [o w1]. simpl in *.
  by subst.
Qed.

Lemma append_instruction_with_moments op mp rule w :
  _moments (self w) ≠ [] →
  append (OSingle (EInstruction op)) mp rule w =
  match update_instruction op (default (update_rule (self w)) rule) w with
  | (Return _, w') => (Return (), w')
  | (Raise e, w') => (Raise e, w')
  end.
Proof.
  intros Hms.
  unfold append, append_iterable, append_prelude, _update.
  mrun. rewrite bool_decide_eq_false_2 by done. mrun.
  by destruct (update_instruction op _ w) as [[r|e] w'].
Qed.

(** INLINE, on a circuit whose last moment is [l]: an instruction that is
    within range and whose parameters register goes to the end of [l] if
    [l] accepts it and into one new moment at the end otherwise; no other
    moment is written and none is moved. *)
Theorem append_inline (op : Instruction) (mp : option mapping)
    (rule : option UpdateRule) (w : world) (ms : list loc) (l : loc)
    (m : Moment.t) :
  default (update_rule (self w)) rule = INLINE →
  _moments (self w) = ms ++ [l] →
  heap w !! l = Some m →
  instruction_in_range (num_qubits (self w)) op = true →
  (_add_parameters op w).1 = Return () →
  let r := append (OSingle (EInstruction op)) mp rule w in
  r.1 = Return () ∧
  (Moment.appendable m op = true →
     _moments (self r.2) = ms ++ [l] ∧ heap r.2 = <[l := m ++ [op]]> (heap w)) ∧
  (Moment.appendable m op = false →
     _moments (self r.2) = ms ++ [l; length (heap w)] ∧
     heap r.2 = heap w ++ [[op]]).
Proof.
  intros Hrule Hms Hl Hrange (tbl' & Hadd)%add_parameters_returns r. subst r.
  rewrite append_instruction_with_moments
    by (rewrite Hms; by intros [_ [=]]%app_eq_nil).
  rewrite Hrule, (update_instruction_place op INLINE w tbl' Hrange Hadd).
  unfold place, last_moment, moment_append, Moment.append, _create_new_moment.
  mrun. rewrite Hms, last_snoc. mrun.
  unfold moment_at. rewrite Hl. simpl.
  destruct (Moment.appendable m op) eqn:Happ; mrun.
  - unfold moment_at. rewrite Hl. simpl. rewrite Happ. mrun.
    split_and!; [done|done|by intros [=]].
  - split_and!; [done|by intros [=]|]. intros _.
    by rewrite <- app_assoc.
Qed.

Lemma append_inline_witness :
  let A := instr 1 [0%Z] in
  let B := instr 2 [1%Z] in
  let C := instr 3 [0%Z] in
  let w := (run_calls [append_op A] (fresh 2 INLINE)).2 in
  moment_structure (append (OSingle (EInstruction B)) None None w).2 = [[A; B]] ∧
  moment_structure (append (OSingle (EInstruction C)) None None w).2 = [[A]; [C]].
Proof.
  intros A B C w.
  pose proof (append_inline B None None w [] 0 [A]
                eq_refl eq_refl eq_refl eq_refl eq_refl) as (_ & HB & _).
  pose proof (append_inline C None None w [] 0 [A]
                eq_refl eq_refl eq_refl eq_refl eq_refl) as (_ & _ & HC).
  destruct (HB eq_refl) as [HB1 HB2]. destruct (HC eq_refl) as [HC1 HC2].
  unfold moment_structure. rewrite HB1, HB2, HC1, HC2. split; reflexivity.
Defined.

(** NEW, on a circuit whose first moment is [l0]: an instruction that is
    within range and whose parameters register goes into [l0] if [l0] is
    empty, whatever moments follow it, and into one new moment at the end
    otherwise. *)
Theorem append_new (op : Instruction) (mp : option mapping)
    (rule : option UpdateRule) (w : world) (ms : list loc) (l0 : loc)
    (m0 : Moment.t) :
  default (update_rule (self w)) rule = NEW →
  _moments (self w) = l0 :: ms →
  heap w !! l0 = Some m0 →
  instruction_in_range (num_qubits (self w)) op = true →
  (_add_parameters op w).1 = Return () →
  let r := append (OSingle (EInstruction op)) mp rule w in
  r.1 = Return () ∧
  (m0 = [] →
     _moments (self r.2) = l0 :: ms ∧ heap r.2 = <[l0 := [op]]> (heap w)) ∧
  (m0 ≠ [] →
     _moments (self r.2) = l0 :: ms ++ [length (heap w)] ∧
     heap r.2 = heap w ++ [[op]]).
Proof.
  intros Hrule Hms Hl Hrange (tbl' & Hadd)%add_parameters_returns r. subst r.
  rewrite append_instruction_with_moments by by rewrite Hms.
  rewrite Hrule, (update_instruction_place op NEW w tbl' Hrange Hadd).
  unfold place, first_moment, moment_append, Moment.append, _create_new_moment.
  mrun. rewrite Hms. mrun.
  unfold moment_at. rewrite Hl. simpl.
  destruct m0 as [|a m0]; mrun.
  - unfold moment_at. rewrite Hl. simpl. rewrite appendable_nil. mrun.
    split_and!; done.
  - split_and!; done.
Qed.

Lemma append_new_witness :
  let A := instr 1 [0%Z] in
  let B := instr 2 [1%Z] in
  let w := {| self := {| _qubits := [0; 1]; _moments := [0; 1]; name := None;
                         update_rule := NEW; _parameter_table := [] |};
              heap := [[]; [A]] |} in
  moment_structure (append (OSingle (EInstruction B)) None None w).2 = [[B]; [A]].
Proof.
  intros A B w.
  pose proof (append_new B None None w [1] 0 []
                eq_refl eq_refl eq_refl eq_refl eq_refl) as (_ & Hfirst & _).
  destruct (Hfirst eq_refl) as [H1 H2].
  unfold moment_structure. rewrite H1, H2. reflexivity.
Defined.

(** * EARLIEST on a circuit in which no moment occurs twice *)

Lemma moment_at_insert_ne (h : list Moment.t) l l' m :
  l ≠ l' → moment_at (<[l := m]> h) l' = moment_at h l'.
Proof. intros Hne. unfold moment_at. by rewrite list_lookup_insert_ne. Qed.

Lemma moment_at_insert_eq (h : list Moment.t) l m :
  l < length h → moment_at (<[l := m]> h) l = m.
Proof. intros Hl. unfold moment_at. by rewrite list_lookup_insert_eq. Qed.

Lemma existsb_ext_elem_of {A} (f g : A → bool) (xs : list A) :
  (∀ x, x ∈ xs → f x = g x) → existsb f xs = existsb g xs.
Proof.
  induction xs as [|x xs IH]; intros Hfg; simpl; [done|].
  rewrite (Hfg x) by left. rewrite IH; [done|].
  intros y Hy. apply Hfg. by right.
Qed.

Lemma existsb_fmap {A B} (f : A → B) (g : B → bool) (xs : list A) :
  existsb g (f <$> xs) = existsb (λ x, g (f x)) xs.
Proof. induction xs as [|x xs IH]; [done|]. rewrite fmap_cons. simpl. by rewrite IH. Qed.

Lemma earliest_scan_nodup op ms : ∀ appended w,
  NoDup ms →
  (∀ l, l ∈ ms → l < length (heap w)) →
  ∃ h',
    earliest_scan op ms appended w
    = (Return (appended
               || existsb (λ l, Moment.appendable (moment_at (heap w) l) op) ms),
       with_heap h' w) ∧
    length h' = length (heap w) ∧
    ∀ l, moment_at h' l =
         if bool_decide (l ∈ ms) && Moment.appendable (moment_at (heap w) l) op
         then moment_at (heap w) l ++ [op] else moment_at (heap w) l.
Proof.
  induction ms as [|l ms IH]; intros appended w Hnodup Hlive.
  - exists (heap w). simpl. rewrite orb_false_r. split_and!; [|done..].
    by destruct w.
  - apply NoDup_cons in Hnodup as [Hl Hnodup].
    assert (l < length (heap w)) as Hllive by (apply Hlive; left).
    cbn [earliest_scan]. rewrite run_bind. unfold deref at 1. mrun.
    destruct (Moment.appendable (moment_at (heap w) l) op) eqn:Happ.
    + unfold moment_append, Moment.append. mrun. rewrite Happ. mrun.
      set (h1 := <[l := moment_at (heap w) l ++ [op]]> (heap w)).
      destruct (IH true (with_heap h1 w)) as (h' & Hrun & Hlen & Hat);
        [done | |].
      { intros l' Hl'. simpl. unfold h1. rewrite length_insert.
        apply Hlive. by right. }
      exists h'. split_and!.
      * unfold with_heap in Hrun. simpl in Hrun. rewrite Hrun.
        simpl. by rewrite orb_true_r.
      * rewrite Hlen. simpl. apply length_insert.
      * intros l'. rewrite Hat. simpl.
        destruct (decide (l' = l)) as [->|Hne].
        -- rewrite (bool_decide_eq_false_2 (l ∈ ms)) by done.
           rewrite (bool_decide_eq_true_2 (l ∈ l :: ms)) by left.
           simpl. rewrite Happ. by apply moment_at_insert_eq.
        -- unfold h1. rewrite moment_at_insert_ne by done.
           replace (bool_decide (l' ∈ l :: ms)) with (bool_decide (l' ∈ ms));
             [done|].
           apply bool_decide_ext. rewrite elem_of_cons.
        split; [by right | by intros [?|?]].
    + destruct (IH appended w) as (h' & Hrun & Hlen & Hat);
        [done | intros l' Hl'; apply Hlive; by right |].
      exists h'. split_and!; [by rewrite Hrun | done |].
      intros l'. rewrite Hat.
      destruct (decide (l' = l)) as [->|Hne].
      * rewrite (bool_decide_eq_false_2 (l ∈ ms)) by done.
        rewrite Happ. simpl. by destruct (bool_decide _).
      * replace (bool_decide (l' ∈ l :: ms)) with (bool_decide (l' ∈ ms));
          [done|].
        apply bool_decide_ext. rewrite elem_of_cons.
        split; [by right | by intros [?|?]].
Qed.

(** EARLIEST, on a circuit with moments none of which occurs twice in the
    sequence: an instruction that is within range and whose parameters
    register is put at the end of every moment that accepts it, not of the
    first only; the other moments are as before; a new moment holding it
    goes to the end exactly when no moment accepts it. *)
Theorem append_earliest (op : Instruction) (mp : option mapping)
    (rule : option UpdateRule) (w : world) :
  default (update_rule (self w)) rule = EARLIEST →
  _moments (self w) ≠ [] →
  NoDup (_moments (self w)) →
  (∀ l, l ∈ _moments (self w) → l < length (heap w)) →
  instruction_in_range (num_qubits (self w)) op = true →
  (_add_parameters op w).1 = Return () →
  let r := append (OSingle (EInstruction op)) mp rule w in
  r.1 = Return () ∧
  moment_structure r.2 =
    ((λ m, if Moment.appendable m op then m ++ [op] else m)
       <$> moment_structure w)
    ++ (if existsb (λ m, Moment.appendable m op) (moment_structure w)
        then [] else [[op]]).
Proof.
  intros Hrule Hms Hnodup Hlive Hrange (tbl' & Hadd)%add_parameters_returns r.
  subst r. rewrite append_instruction_with_moments by done.
  rewrite Hrule, (update_instruction_place op EARLIEST w tbl' Hrange Hadd).
  destruct (earliest_scan_nodup op (_moments (self w)) false
              (with_parameter_table tbl' w) Hnodup Hlive)
    as (h' & Hrun & Hlen & Hat).
  simpl in Hrun, Hlen, Hat.
  unfold place, _earliest_appended. rewrite !run_bind.
  unfold get_moments, gets. cbn [self with_parameter_table _moments].
  rewrite Hrun. unfold moment_structure at 2 3. rewrite existsb_fmap.
  destruct (existsb _ (_moments (self w))) eqn:Hany.
  - mrun. split; [done|]. rewrite app_nil_r.
    unfold moment_structure. simpl. rewrite <- list_fmap_compose.
    apply list_fmap_ext. intros i l Hl%list_elem_of_lookup_2.
    simpl. rewrite Hat. by rewrite bool_decide_eq_true_2.
  - unfold _create_new_moment. mrun. split; [done|].
    unfold moment_structure. simpl. rewrite fmap_app. f_equal.
    + rewrite <- list_fmap_compose.
      apply list_fmap_ext. intros i l Hl%list_elem_of_lookup_2. simpl.
      unfold moment_at at 1. rewrite lookup_app_l by (rewrite Hlen; by apply Hlive).
      fold (moment_at h' l). rewrite Hat. by rewrite bool_decide_eq_true_2.
    + simpl. unfold moment_at. by rewrite lookup_app_r, Nat.sub_diag.
Qed.

Lemma append_earliest_witness :
  let A := instr 1 [0%Z] in
  let B := instr 2 [1%Z] in
  let C := instr 3 [0%Z] in
  let D := instr 4 [2%Z] in
  let w := (run_calls [append_op A; append_op B; append_op C] (fresh 3 EARLIEST)).2 in
  moment_structure w = [[A; B]; [C]] ∧
  moment_structure (append (OSingle (EInstruction D)) None None w).2
    = [[A; B; D]; [C; D]] ∧
  moment_structure (append (OSingle (EInstruction C)) None None w).2
    = [[A; B]; [C]; [C]].
Proof.
  intros A B C D w.
  assert (NoDup (_moments (self w))) as Hnodup by compute_done.
  assert (∀ l, l ∈ _moments (self w) → l < length (heap w)) as Hlive.
  { apply Forall_forall. compute_done. }
  assert (_moments (self w) ≠ []) as Hms by done.
  split; [reflexivity|]. split.
  - exact (proj2 (append_earliest D None None w eq_refl Hms Hnodup Hlive
                    eq_refl eq_refl)).
  - exact (proj2 (append_earliest C None None w eq_refl Hms Hnodup Hlive
                    eq_refl eq_refl)).
Defined.

(** * Appending moments and circuits *)

Lemma append_seq_run es mp rule w :
  append (OSeq es) mp rule w =
  match append_prelude es w with
  | (Return _, w0) =>
      match update_loop es (default (update_rule (self w)) rule)
              (Z.of_nat (length (_moments (self w0)))) w0 with
      | (Return _, w') => (Return (), w')
      | (Raise e, w') => (Raise e, w')
      end
  | (Raise e, w0) => (Raise e, w0)
  end.
Proof.
  unfold append, append_iterable, _update, get_update_rule, get_moments, gets.
  rewrite run_bind. cbv beta iota. rewrite run_bind.
  destruct (append_prelude es w) as [[[]|e] w0]; [|done].
  rewrite run_bind. cbv beta iota. rewrite run_bind.
  by destruct (update_loop es _ _ w0) as [[r|e] w'].
Qed.

Lemma append_single_run e mp rule w :
  append (OSingle e) mp rule w = append (OSeq [e]) mp rule w.
Proof. reflexivity. Qed.

Lemma append_prelude_not_instruction e es w :
  is_instruction e = false → append_prelude (e :: es) w = (Return (), w).
Proof.
  intros He. unfold append_prelude, get_moments, gets. rewrite run_bind.
  cbv beta iota. rewrite He. by case_bool_decide.
Qed.

Lemma add_parameters_all_frame instrs w :
  ∃ tbl', (add_parameters_all instrs w).2 = with_parameter_table tbl' w.
Proof.
  revert w. induction instrs as [|i instrs IH]; intros w; simpl.
  - exists (_parameter_table (self w)). symmetry. apply with_parameter_table_id.
  - rewrite run_bind.
    destruct (add_parameters_frame i w) as (tbl1 & Hw1 & _).
    destruct (_add_parameters i w) as [[[]|e] w1]; simpl in *; subst w1.
    + destruct (IH (with_parameter_table tbl1 w)) as (tbl2 & Hw2).
      exists tbl2. by rewrite Hw2.
    + by exists tbl1.
Qed.

Lemma update_moment_invalid l index w :
  forallb (instruction_in_range (num_qubits (self w))) (moment_at (heap w) l)
    = false →
  update_moment l index w = (Raise InvalidOperation, w).
Proof.
  intros Hbad. unfold update_moment, validate_operation_moment.
  rewrite !run_bind. unfold get_moments, get_num_qubits, gets, deref, get_heap.
  rewrite !run_bind. unfold gets. cbn [mret M_ret lift].
  rewrite !run_bind. cbn [mret M_ret]. by rewrite Hbad.
Qed.

Lemma update_moment_returns l index w w' :
  update_moment l index w = (Return (), w') →
  _moments (self w')
    = list_insert_at (clamp_index index (length (_moments (self w)))) l
        (_moments (self w)) ∧
  heap w' = heap w ∧
  num_qubits (self w') = num_qubits (self w).
Proof.
  unfold update_moment, validate_operation_moment, insert_moment.
  rewrite !run_bind. unfold get_moments, get_num_qubits, gets, deref, get_heap.
  rewrite !run_bind. unfold gets. cbn [mret M_ret lift].
  rewrite !run_bind. cbn [mret M_ret].
  destruct (forallb _ _); [|done]. rewrite !run_bind.
  destruct (add_parameters_all_frame (moment_at (heap w) l) w) as (tbl' & Hw).
  destruct (add_parameters_all _ w) as [[[]|e] w1]; simpl in *; [|done].
  subst w1. intros [= <-]. done.
Qed.

Lemma clamp_index_of_nat i len : i ≤ len → clamp_index (Z.of_nat i) len = i.
Proof.
  intros Hi. unfold clamp_index. rewrite bool_decide_eq_true_2 by lia. lia.
Qed.

Lemma list_insert_at_middle {A} (xs ys : list A) x :
  list_insert_at (length xs) x (xs ++ ys) = xs ++ x :: ys.
Proof. unfold list_insert_at. by rewrite take_app_length, drop_app_length. Qed.

Lemma update_loop_moments ms rule ls : ∀ w acc r' w',
  _moments (self w) = ms ++ acc →
  update_loop (EMoment <$> ls) rule (Z.of_nat (length ms)) w = (Return r', w') →
  _moments (self w') = ms ++ reverse ls ++ acc ∧ heap w' = heap w.
Proof.
  induction ls as [|l ls IH]; intros w acc r' w' Hms Hrun.
  - simpl in Hrun. injection Hrun as <- <-. done.
  - rewrite fmap_cons, update_loop_cons in Hrun.
    cbn [update_element] in Hrun. rewrite run_bind in Hrun.
    destruct (update_moment l _ w) as [[[]|e] w1] eqn:Hl; [|done].
    apply update_moment_returns in Hl as (Hms1 & Hh1 & _).
    rewrite Hms, clamp_index_of_nat, list_insert_at_middle in Hms1
      by (rewrite length_app; lia).
    cbn [mret M_ret] in Hrun.
    destruct (IH w1 (l :: acc) r' w' Hms1 Hrun) as [Hms' Hh'].
    split; [|congruence].
    rewrite Hms', reverse_cons, <- app_assoc. done.
Qed.

(** One call with a list of moments puts every one of them at the place
    that was the end of the sequence when the call began: if the call
    returns, the moments follow the old ones in the reverse of the order
    of the list.  They are put in as they are: no moment object is
    written or copied. *)
Theorem append_moments_reversed (ls : list loc) (mp : option mapping)
    (rule : option UpdateRule) (w : world) :
  let r := append (OSeq (EMoment <$> ls)) mp rule w in
  r.1 = Return () →
  _moments (self r.2) = _moments (self w) ++ reverse ls ∧
  heap r.2 = heap w.
Proof.
  intros r. subst r. rewrite append_seq_run.
  destruct ls as [|l ls].
  - unfold append_prelude, get_moments, gets. rewrite run_bind. cbv beta iota.
    case_bool_decide; [done|]. simpl. by rewrite app_nil_r.
  - rewrite fmap_cons, append_prelude_not_instruction by done.
    rewrite <- fmap_cons.
    destruct (update_loop _ _ _ w) as [[r'|e] w'] eqn:Hloop; [|done].
    intros _.
    destruct (update_loop_moments (_moments (self w))
                (default (update_rule (self w)) rule) (l :: ls) w [] r' w')
      as [Hms' Hh']; [by rewrite app_nil_r | done |].
    by rewrite app_nil_r in Hms'.
Qed.

Lemma append_moments_reversed_witness :
  let A := instr 1 [0%Z] in
  let B := instr 2 [0%Z] in
  let w := {| self := __init__ 1 None EARLIEST; heap := [[A]; [B]] |} in
  let r := append (OSeq [EMoment 0; EMoment 1]) None None w in
  r.1 = Return () ∧ moment_structure r.2 = [[B]; [A]].
Proof.
  intros A B w r.
  assert (r.1 = Return ()) as Hret by reflexivity.
  split; [exact Hret|].
  destruct (append_moments_reversed [0; 1] None None w Hret) as [Hms Hh].
  change (_moments (self r.2) = _moments (self w) ++ reverse [0; 1]) in Hms.
  change (heap r.2 = heap w) in Hh.
  unfold moment_structure. rewrite Hms, Hh. reflexivity.
Defined.

(** A moment holding an instruction outside the range of the circuit is
    refused and nothing is written: no parameter is registered and, other
    than for an instruction, no moment is created on a circuit that has
    none. *)
Theorem append_invalid_moment (l : loc) (mp : option mapping)
    (rule : option UpdateRule) (w : world) :
  forallb (instruction_in_range (num_qubits (self w))) (moment_at (heap w) l)
    = false →
  append (OSingle (EMoment l)) mp rule w = (Raise InvalidOperation, w).
Proof.
  intros Hbad.
  rewrite append_single_run, append_seq_run,
    append_prelude_not_instruction by done.
  rewrite update_loop_cons. cbn [update_element]. rewrite run_bind.
  by rewrite update_moment_invalid.
Qed.

Lemma append_invalid_moment_witness :
  let w := {| self := __init__ 2 None EARLIEST; heap := [[instr 1 [5%Z]]] |} in
  append (OSingle (EMoment 0)) None None w = (Raise InvalidOperation, w) ∧
  len (self w) = 0.
Proof.
  intros w. split; [|reflexivity].
  apply (append_invalid_moment 0 None None w). reflexivity.
Defined.

Lemma append_circuit_from_returns ls : ∀ w w',
  append_circuit_from ls w = (Return (), w') →
  _moments (self w') = _moments (self w) ++ ls ∧ heap w' = heap w ∧
  num_qubits (self w') = num_qubits (self w).
Proof.
  induction ls as [|l ls IH]; intros w w' Hrun.
  - simpl in Hrun. injection Hrun as <-. by rewrite app_nil_r.
  - cbn [append_circuit_from] in Hrun. unfold validate_operation_moment in Hrun.
    rewrite !run_bind in Hrun.
    unfold get_num_qubits, gets, deref, get_heap in Hrun.
    rewrite !run_bind in Hrun. unfold gets in Hrun. cbn [mret M_ret lift] in Hrun.
    rewrite !run_bind in Hrun. cbn [mret M_ret] in Hrun.
    destruct (forallb _ _); [|done].
    unfold append_moment in Hrun. rewrite !run_bind in Hrun.
    unfold get_moments, gets in Hrun.
    destruct (update_moment l _ w) as [[[]|e] w1] eqn:Hl; [|done].
    apply update_moment_returns in Hl as (Hms1 & Hh1 & Hn1).
    rewrite clamp_index_of_nat in Hms1 by done.
    rewrite <- (app_nil_r (_moments (self w))) in Hms1 at 2.
    rewrite list_insert_at_middle in Hms1.
    destruct (IH w1 w' Hrun) as (Hms' & Hh' & Hn').
    split_and!; [|congruence..]. by rewrite Hms', Hms1, <- app_assoc.
Qed.

(** Appending a circuit: if the call returns, the moments of the
    sub-circuit follow those of the receiver in their order, as the very
    moment objects of the sub-circuit (a moment written later through one
    circuit is written for both); no moment object is written or copied,
    and neither the mapping nor the rule matters. *)
Theorem append_circuit_shares_moments (sub : Circuit.t) (mp : option mapping)
    (rule : option UpdateRule) (w : world) :
  let r := append (OSingle (ECircuit sub)) mp rule w in
  r.1 = Return () →
  _moments (self r.2) = _moments (self w) ++ _moments sub ∧
  heap r.2 = heap w.
Proof.
  intros r. subst r.
  rewrite append_single_run, append_seq_run,
    append_prelude_not_instruction by done.
  rewrite update_loop_cons. cbn [update_element update_loop]. rewrite run_bind.
  unfold _append_circuit.
  destruct (append_circuit_from (_moments sub) w) as [[[]|e] w'] eqn:Hrun;
    [|done].
  intros _. apply append_circuit_from_returns in Hrun as (? & ? & _). done.
Qed.

Lemma append_circuit_shares_moments_witness :
  let A := instr 1 [0%Z] in
  let B := instr 2 [1%Z] in
  let sub := (run_calls [append_op A] (fresh 2 EARLIEST)).2 in
  let parent := {| self := __init__ 3 None INLINE; heap := heap sub |} in
  let r := append (OSingle (ECircuit (self sub))) None None parent in
  let r' := append (OSingle (EInstruction B)) None None r.2 in
  _moments (self r.2) = _moments (self sub) ∧
  moment_structure r'.2 = [[A; B]] ∧
  moment_structure {| self := self sub; heap := heap r'.2 |} = [[A; B]].
Proof.
  intros A B sub parent r r'.
  assert (r.1 = Return ()) as Hret by reflexivity.
  destruct (append_circuit_shares_moments (self sub) None None parent Hret)
    as [Hms _].
  split; [exact Hms | split; reflexivity].
Defined.

Lemma append_circuit_from_cons l ls w :
  append_circuit_from (l :: ls) w =
  match append_circuit_step l w with
  | (Return _, w1) => append_circuit_from ls w1
  | (Raise e, w1) => (Raise e, w1)
  end.
Proof.
  cbn [append_circuit_from]. unfold append_circuit_step.
  rewrite !run_bind. unfold get_num_qubits, gets, deref, get_heap.
  rewrite !run_bind. unfold gets. cbn [mret M_ret]. rewrite !run_bind.
  destruct (lift _ w) as [[ok|e] w1]; [|done].
  rewrite !run_bind. done.
Qed.

Lemma append_circuit_from_app pre post w :
  append_circuit_from (pre ++ post) w =
  match append_circuit_from pre w with
  | (Return _, w1) => append_circuit_from post w1
  | (Raise e, w1) => (Raise e, w1)
  end.
Proof.
  revert w. induction pre as [|l pre IH]; intros w; [done|].
  rewrite <- app_comm_cons, !append_circuit_from_cons.
  destruct (append_circuit_step l w) as [[[]|e] w1]; [apply IH | done].
Qed.

(** Appending a circuit one of whose moments holds an instruction outside
    the range of the receiver: the moments before it, once the loop of
    [_append_circuit] has put them in, stay in; the call raises at that
    moment and looks at none after it. *)
Theorem append_circuit_partial (sub : Circuit.t) (pre : list loc) (bad : loc)
    (post : list loc) (mp : option mapping) (rule : option UpdateRule)
    (w w1 : world) :
  _moments sub = pre ++ bad :: post →
  append_circuit_from pre w = (Return (), w1) →
  forallb (instruction_in_range (num_qubits (self w))) (moment_at (heap w) bad)
    = false →
  append (OSingle (ECircuit sub)) mp rule w = (Raise InvalidOperation, w1) ∧
  _moments (self w1) = _moments (self w) ++ pre ∧
  heap w1 = heap w.
Proof.
  intros Hsub Hpre Hbad.
  destruct (append_circuit_from_returns pre w w1 Hpre) as (Hms & Hh & Hn).
  split; [|done].
  rewrite append_single_run, append_seq_run,
    append_prelude_not_instruction by done.
  rewrite update_loop_cons. cbn [update_element]. rewrite run_bind.
  unfold _append_circuit.
  rewrite Hsub, append_circuit_from_app, Hpre, append_circuit_from_cons.
  unfold append_circuit_step, validate_operation_moment.
  rewrite !run_bind. unfold get_num_qubits, gets, deref, get_heap.
  rewrite !run_bind. unfold gets. cbn [mret M_ret lift]. rewrite !run_bind.
  cbn [mret M_ret]. by rewrite Hh, Hn, Hbad.
Qed.

Lemma append_circuit_partial_witness :
  let A := instr 1 [0%Z] in
  let B := instr 2 [2%Z] in
  let sub := {| self := {| _qubits := [0; 1; 2]; _moments := [0; 1];
                           name := None; update_rule := EARLIEST;
                           _parameter_table := [] |};
                heap := [[A]; [B]] |} in
  let parent := {| self := __init__ 2 None EARLIEST; heap := heap sub |} in
  let r := append (OSingle (ECircuit (self sub))) None None parent in
  r.1 = Raise InvalidOperation ∧ moment_structure r.2 = [[A]].
Proof.
  intros A B sub parent r.
  destruct (append_circuit_partial (self sub) [0] 1 [] None None parent
              (append_circuit_from [0] parent).2 eq_refl eq_refl eq_refl)
    as (Hr & _ & _).
  change (r = (Raise InvalidOperation, (append_circuit_from [0] parent).2)) in Hr.
  rewrite Hr. split; reflexivity.
Defined.

(** * A rule that is none of the four *)

(** With a rule that is none of the four, appending an instruction that
    is within range raises only after its parameters are registered: the
    instruction is placed nowhere, the table holds its bindings. *)
Theorem append_unsupported_rule (op : Instruction) (mp : option mapping)
    (rule : option UpdateRule) (w : world) :
  default (update_rule (self w)) rule = UNSUPPORTED_RULE →
  _moments (self w) ≠ [] →
  instruction_in_range (num_qubits (self w)) op = true →
  (_add_parameters op w).1 = Return () →
  let r := append (OSingle (EInstruction op)) mp rule w in
  r.1 = Raise UnsupportedUpdateRule ∧
  r.2 = (_add_parameters op w).2 ∧
  moment_structure r.2 = moment_structure w.
Proof.
  intros Hrule Hms Hrange Hret r. subst r.
  destruct (add_parameters_returns op w Hret) as (tbl' & Hadd).
  rewrite append_instruction_with_moments by done.
  rewrite Hrule, (update_instruction_place op _ w tbl' Hrange Hadd), Hadd.
  done.
Qed.

Lemma append_unsupported_rule_witness :
  let theta := {| param_id := 7; param_name := "theta" |} in
  let A := instr 1 [0%Z] in
  let D := {| instr_id := 2;
              gate := {| gate_name := "RX"; params := [Symbol theta] |};
              qubits := [1%Z] |} in
  let w := (run_calls [append_op A] (fresh 2 EARLIEST)).2 in
  let r := append (OSingle (EInstruction D)) None (Some UNSUPPORTED_RULE) w in
  r.1 = Raise UnsupportedUpdateRule ∧
  moment_structure r.2 = [[A]] ∧
  _parameter_table (self r.2) = [(theta, [(D, 0)])].
Proof.
  intros theta A D w r.
  assert (_moments (self w) ≠ []) as Hms by done.
  destruct (append_unsupported_rule D None (Some UNSUPPORTED_RULE) w
              eq_refl Hms eq_refl eq_refl) as (Hr & Hw & Hm).
  split; [exact Hr|]. split; [exact Hm|].
  change (r.2 = (_add_parameters D w).2) in Hw. rewrite Hw. reflexivity.
Defined.

(** * A circuit without moments *)

Lemma register_placement_blind i k p ms h w :
  register i k p (with_moments ms (with_heap h w))
  = ((register i k p w).1, with_moments ms (with_heap h (register i k p w).2)).
Proof. unfold register. mrun. by repeat (cbv zeta; case_match). Qed.

Lemma add_parameters_from_placement_blind i ps ms h : ∀ k w,
  add_parameters_from i k ps (with_moments ms (with_heap h w))
  = ((add_parameters_from i k ps w).1,
     with_moments ms (with_heap h (add_parameters_from i k ps w).2)).
Proof.
  induction ps as [|[v|p] ps IH]; intros k w; cbn [add_parameters_from].
  - done.
  - apply IH.
  - rewrite !run_bind, register_placement_blind.
    destruct (register i k p w) as [[[]|e] w1]; simpl; [apply IH | done].
Qed.

(** The first instruction on a circuit without moments, under any of the
    four rules: if it is within range and its parameters register, the
    circuit has one moment afterwards, a new one that holds just this
    instruction. *)
Theorem append_first_instruction (op : Instruction) (mp : option mapping)
    (rule : option UpdateRule) (w : world) :
  _moments (self w) = [] →
  default (update_rule (self w)) rule ≠ UNSUPPORTED_RULE →
  instruction_in_range (num_qubits (self w)) op = true →
  (_add_parameters op w).1 = Return () →
  let r := append (OSingle (EInstruction op)) mp rule w in
  r.1 = Return () ∧
  _moments (self r.2) = [length (heap w)] ∧
  heap r.2 = heap w ++ [[op]] ∧
  _parameter_table (self r.2) = _parameter_table (self (_add_parameters op w).2).
Proof.
  intros Hms Hrule Hrange Hret r. subst r.
  destruct (add_parameters_returns op w Hret) as (tbl' & Hadd).
  set (w0 := with_moments [length (heap w)] (with_heap (heap w ++ [[]]) w)).
  assert (append_prelude [EInstruction op] w = (Return (), w0)) as Hprelude.
  { unfold append_prelude, _create_new_moment. mrun. rewrite Hms. mrun.
    rewrite ?Hms. reflexivity. }
  assert (_add_parameters op w0 = (Return (), with_parameter_table tbl' w0))
    as Hadd0.
  { unfold _add_parameters, w0 in *.
    rewrite add_parameters_from_placement_blind, Hadd. done. }
  rewrite append_single_run, append_seq_run, Hprelude, update_loop_cons.
  cbn [update_element update_loop].
  rewrite (update_instruction_place op _ w0 tbl' Hrange Hadd0), Hadd.
  assert (moment_at (heap w ++ [[]]) (length (heap w)) = []) as Hat.
  { unfold moment_at. by rewrite lookup_app_r, Nat.sub_diag. }
  assert (<[length (heap w) := [op]]> (heap w ++ [[]]) = heap w ++ [[op]])
    as Hins.
  { by rewrite insert_app_r_alt, Nat.sub_diag. }
  destruct (default (update_rule (self w)) rule); [| | | |done];
    repeat (progress (unfold place, _earliest_appended, first_moment,
                        last_moment, moment_append, Moment.append;
                      mrun; rewrite ?Hat, ?appendable_nil));
    rewrite Hins; done.
Qed.

Lemma append_first_instruction_witness :
  let A := instr 1 [0%Z; 1%Z] in
  let shape rule :=
    moment_structure
      (append (OSingle (EInstruction A)) None (Some rule) (fresh 2 EARLIEST)).2 in
  shape EARLIEST = [[A]] ∧ shape INLINE = [[A]] ∧ shape NEW = [[A]] ∧
  shape NEW_THEN_INLINE = [[A]].
Proof.
  intros A shape.
  assert (∀ rule, rule ≠ UNSUPPORTED_RULE → shape rule = [[A]]) as Hall.
  { intros rule Hrule.
    destruct (append_first_instruction A None (Some rule) (fresh 2 EARLIEST)
                eq_refl Hrule eq_refl eq_refl) as (_ & Hms & Hh & _).
    unfold shape, moment_structure. rewrite Hms, Hh. reflexivity. }
  split_and!; by apply Hall.
Defined.

Lemma update_loop_places_nothing pre rule index w :
  Forall places_nothing pre → update_loop pre rule index w = (Return rule, w).
Proof.
  induction 1 as [|e pre [->|(sub & -> & Hsub)] _ IH]; [done|..];
    rewrite update_loop_cons; cbn [update_element]; [done|].
  unfold _append_circuit. rewrite Hsub. done.
Qed.

(** On a circuit without moments, a list that holds an instruction behind
    elements that place nothing (objects of other types, circuits without
    moments): no first moment is created, since only the first element of
    the list is looked at, and INLINE, NEW and NEW_THEN_INLINE raise
    [IndexError] at the instruction, after its parameters are
    registered. *)
Theorem append_instruction_not_first (pre : list element) (op : Instruction)
    (post : list element) (mp : option mapping) (rule : option UpdateRule)
    (w : world) :
  _moments (self w) = [] →
  pre ≠ [] →
  Forall places_nothing pre →
  default (update_rule (self w)) rule ∈ [INLINE; NEW; NEW_THEN_INLINE] →
  instruction_in_range (num_qubits (self w)) op = true →
  (_add_parameters op w).1 = Return () →
  append (OSeq (pre ++ EInstruction op :: post)) mp rule w
  = (Raise IndexError, (_add_parameters op w).2).
Proof.
  intros Hms Hpre Hnothing Hrule Hrange Hret.
  destruct (add_parameters_returns op w Hret) as (tbl' & Hadd).
  rewrite append_seq_run.
  destruct pre as [|e pre]; [done|].
  rewrite <- app_comm_cons, append_prelude_not_instruction.
  2:{ apply Forall_inv in Hnothing as [->|(sub & -> & _)]; done. }
  rewrite app_comm_cons, update_loop_app, update_loop_places_nothing by done.
  rewrite update_loop_cons. cbn [update_element].
  rewrite (update_instruction_place op _ w tbl' Hrange Hadd), Hadd.
  unfold place, first_moment, last_moment.
  apply elem_of_cons in Hrule as [->|Hrule];
    [|apply elem_of_cons in Hrule as [->|Hrule];
      [|apply list_elem_of_singleton in Hrule as ->]];
    mrun; rewrite Hms; done.
Qed.

Lemma append_instruction_not_first_witness :
  let theta := {| param_id := 7; param_name := "theta" |} in
  let D := {| instr_id := 2;
              gate := {| gate_name := "RX"; params := [Symbol theta] |};
              qubits := [1%Z] |} in
  let empty := __init__ 2 None EARLIEST in
  let w := fresh 2 INLINE in
  let r := append (OSeq [ECircuit empty; EInstruction D]) None None w in
  r.1 = Raise IndexError ∧ len (self r.2) = 0 ∧
  _parameter_table (self r.2) = [(theta, [(D, 0)])].
Proof.
  intros theta D empty w r.
  assert (Forall places_nothing [ECircuit empty]) as Hnothing.
  { constructor; [|constructor]. right. by exists empty. }
  assert (default (update_rule (self w)) None ∈ [INLINE; NEW; NEW_THEN_INLINE])
    as Hrule by left.
  pose proof (append_instruction_not_first [ECircuit empty] D [] None None w
                eq_refl ltac:(done) Hnothing Hrule eq_refl eq_refl) as Hr.
  change (r = (Raise IndexError, (_add_parameters D w).2)) in Hr.
  rewrite Hr. split_and!; reflexivity.
Defined.

(** * NEW_THEN_INLINE *)

Lemma update_instruction_new_then_inline op w :
  update_instruction op NEW_THEN_INLINE w =
  match update_instruction op NEW w with
  | (Return _, w1) => (Return INLINE, w1)
  | (Raise e, w1) => (Raise e, w1)
  end.
Proof.
  unfold update_instruction, validate_operation_instruction. mrun.
  destruct (instruction_in_range _ op); mrun; [|done].
  destruct (_add_parameters op w) as [[[]|e] w3]; mrun; [|done].
  destruct (first_moment w3) as [[l|e] w4]; mrun; [|done].
  by destruct ((if bool_decide (moment_at (heap w4) l = [])
                then moment_append l op
                else _create_new_moment (Some op)) w4) as [[[]|e] w6].
Qed.

Lemma update_loop_instructions_index ops : ∀ rule index index' w,
  update_loop (EInstruction <$> ops) rule index w
  = update_loop (EInstruction <$> ops) rule index' w.
Proof.
  induction ops as [|op ops IH]; intros rule index index' w; [done|].
  rewrite fmap_cons, !update_loop_cons. cbn [update_element].
  destruct (update_instruction op rule w) as [[r|e] w1]; [apply IH | done].
Qed.

Lemma append_prelude_head e es w :
  append_prelude (e :: es) w = append_prelude [e] w.
Proof. reflexivity. Qed.

Lemma append_prelude_with_moments es w :
  _moments (self w) ≠ [] → append_prelude es w = (Return (), w).
Proof.
  intros Hms. unfold append_prelude, get_moments, gets. rewrite run_bind.
  cbv beta iota. by rewrite bool_decide_eq_false_2.
Qed.

Lemma append_prelude_instruction_moments op w :
  (append_prelude [EInstruction op] w).1 = Return () ∧
  _moments (self (append_prelude [EInstruction op] w).2) ≠ [].
Proof.
  unfold append_prelude, _create_new_moment. mrun.
  case_bool_decide as Hms; mrun; [|done].
  split; [done|]. by intros [_ [=]]%app_eq_nil.
Qed.

(** One call with a list of instructions under NEW_THEN_INLINE does what
    two calls do: the first instruction appended under NEW, then the rest
    of the list appended under INLINE; if the first call raises, so does
    the one call, with the same state. *)
Theorem append_new_then_inline (op : Instruction) (ops : list Instruction)
    (mp : option mapping) (w : world) :
  append (OSeq (EInstruction <$> op :: ops)) mp (Some NEW_THEN_INLINE) w
  = (append (OSingle (EInstruction op)) mp (Some NEW);;
     append (OSeq (EInstruction <$> ops)) mp (Some INLINE)) w.
Proof.
  rewrite run_bind, append_single_run, !append_seq_run.
  rewrite fmap_cons, append_prelude_head.
  destruct (append_prelude_instruction_moments op w) as [Hret Hms0].
  destruct (append_prelude [EInstruction op] w) as [[[]|e] w0]; [|done].
  simpl in Hms0. cbn [default from_option id].
  rewrite !update_loop_cons. cbn [update_element update_loop].
  rewrite update_instruction_new_then_inline.
  pose proof (grows_update_element (EInstruction op) NEW
                (Z.of_nat (length (_moments (self w0)))) w0) as Hgrows.
  cbn [update_element] in Hgrows.
  destruct (update_instruction op NEW w0) as [[r|e] w1]; [|done].
  simpl in Hgrows. cbn [mret M_ret].
  assert (_moments (self w1) ≠ []) as Hms1.
  { intros Hnil. destruct Hgrows as [Hsub _ _]. rewrite Hnil in Hsub.
    by apply sublist_nil_r in Hsub. }
  rewrite append_seq_run, append_prelude_with_moments by done.
  cbn [default from_option id].
  by rewrite (update_loop_instructions_index ops INLINE
                (Z.of_nat (length (_moments (self w0))))
                (Z.of_nat (length (_moments (self w1))))).
Qed.

(** * Registering twice *)

Lemma recorded_app bs bs' i k : recorded bs i k → recorded (bs ++ bs') i k.
Proof.
  intros (b & Hb & Hid & Hk). exists b. split; [|done].
  apply elem_of_app. by left.
Qed.

Lemma bound_grows w w' i k p :
  grows w w' →
  bound (_parameter_table (self w)) i k p →
  bound (_parameter_table (self w')) i k p.
Proof.
  intros [_ _ Htable] (bs & Hbs & Hrec).
  destruct (Htable p bs Hbs) as [bs' Hbs'].
  exists (bs ++ bs'). split; [done | by apply recorded_app].
Qed.

Lemma register_noop i k p w :
  bound (_parameter_table (self w)) i k p → register i k p w = (Return (), w).
Proof.
  intros (bs & Hbs & Hrec%check_dup_param_spec_true).
  unfold register. mrun.
  rewrite (proj2 (contains_true _ p)) by by rewrite Hbs.
  rewrite Hbs. simpl. by rewrite Hrec.
Qed.

Lemma register_binds i k p w w1 :
  register i k p w = (Return (), w1) → bound (_parameter_table (self w1)) i k p.
Proof.
  unfold register. mrun.
  set (tbl := _parameter_table (self w)).
  assert (recorded [(i, k)] i k) as Hnew.
  { exists (i, k). split; [by left | done]. }
  destruct (ParameterTable.contains tbl p) eqn:Hc.
  - apply contains_true in Hc as [bs Hbs]. rewrite Hbs. simpl.
    destruct (_check_dup_param_spec bs i k) eqn:Hdup; simpl; intros [= <-].
    + exists bs. split; [done|]. by apply check_dup_param_spec_true.
    + simpl. eexists. split; [apply getitem_setitem_eq|].
      exists (i, k). split; [|done]. apply elem_of_app. right. by left.
  - case_bool_decide; simpl; [done|]. intros [= <-]. simpl.
    eexists. split; [apply getitem_setitem_eq | done].
Qed.

Lemma grows_add_parameters_from i k ps : steps grows (add_parameters_from i k ps).
Proof.
  apply (P_add_parameters_from (λ A, steps grows)); intros;
    first [ apply (@steps_ret grows grows_preorder)
          | apply (@steps_bind grows grows_preorder); assumption
          | apply grows_register ].
Qed.

Lemma add_parameters_from_binds i ps : ∀ k w w1,
  add_parameters_from i k ps w = (Return (), w1) →
  ∀ j p, ps !! j = Some (Symbol p) →
         bound (_parameter_table (self w1)) i (k + j) p.
Proof.
  induction ps as [|[v|p0] ps IH]; intros k w w1 Hrun j p Hj.
  - by rewrite lookup_nil in Hj.
  - destruct j as [|j]; [done|]. simpl in Hj, Hrun.
    rewrite <- Nat.add_succ_comm. by eapply IH.
  - cbn [add_parameters_from] in Hrun. rewrite run_bind in Hrun.
    destruct (register i k p0 w) as [[[]|e] w'] eqn:Hreg; [|done].
    destruct j as [|j]; simpl in Hj.
    + injection Hj as <-. rewrite Nat.add_0_r.
      apply (bound_grows w' w1).
      * pose proof (grows_add_parameters_from i (S k) ps w') as Hg.
        by rewrite Hrun in Hg.
      * by eapply register_binds.
    + rewrite <- Nat.add_succ_comm. by eapply IH.
Qed.

Lemma add_parameters_from_noop i ps : ∀ k w,
  (∀ j p, ps !! j = Some (Symbol p) →
          bound (_parameter_table (self w)) i (k + j) p) →
  add_parameters_from i k ps w = (Return (), w).
Proof.
  induction ps as [|[v|p0] ps IH]; intros k w Hbound; [done|..];
    cbn [add_parameters_from].
  - apply IH. intros j p Hj. rewrite Nat.add_succ_comm. by apply (Hbound (S j)).
  - rewrite run_bind, register_noop.
    + apply IH. intros j p Hj. rewrite Nat.add_succ_comm. by apply (Hbound (S j)).
    + specialize (Hbound 0 p0 eq_refl). by rewrite Nat.add_0_r in Hbound.
Qed.

(** Once the parameters of an instruction are registered, registering
    them again changes nothing and raises nothing, at once or in any
    later state that only grew: the same instruction object appended
    again adds no binding. *)
Theorem add_parameters_idempotent (instruction : Instruction)
    (w w1 w2 : world) :
  _add_parameters instruction w = (Return (), w1) →
  grows w1 w2 →
  _add_parameters instruction w2 = (Return (), w2).
Proof.
  intros Hrun Hgrows. apply add_parameters_from_noop.
  intros j p Hj. apply (bound_grows w1 w2 _ _ _ Hgrows).
  by apply (add_parameters_from_binds instruction _ 0 w w1 Hrun).
Qed.

Lemma add_parameters_idempotent_witness :
  let theta := {| param_id := 7; param_name := "theta" |} in
  let D := {| instr_id := 1;
              gate := {| gate_name := "U2"; params := [Number 3; Symbol theta] |};
              qubits := [0%Z] |} in
  let w1 := (_add_parameters D (fresh 2 EARLIEST)).2 in
  _parameter_table (self w1) = [(theta, [(D, 1)])] ∧
  _add_parameters D w1 = (Return (), w1).
Proof.
  intros theta D w1. split; [reflexivity|].
  assert (grows w1 w1) as Hrefl by reflexivity.
  exact (add_parameters_idempotent D (fresh 2 EARLIEST) w1 w1 eq_refl Hrefl).
Defined.

(** * Every method, from what is done with one element *)

Section methods_by_element.
Context (P : ∀ A, M A → Prop).
Hypothesis P_ret : ∀ A (a : A), P A (mret a).
Hypothesis P_raise : ∀ A e, P A (raise e).
Hypothesis P_bind : ∀ A B (m : M A) (f : A → M B),
  P A m → (∀ a, P B (f a)) → P B (m ≫= f).
Hypothesis P_get_moments : P _ get_moments.
Hypothesis P_get_num_qubits : P _ get_num_qubits.
Hypothesis P_get_update_rule : P _ get_update_rule.
Hypothesis P_deref : ∀ l, P _ (deref l).
Hypothesis P_create_empty_moment : P _ (_create_new_moment None).
Hypothesis P_update_instruction : ∀ op rule, P _ (update_instruction op rule).
Hypothesis P_update_moment : ∀ l index, P _ (update_moment l index).

Ltac estep :=
  lazymatch goal with
  | |- P _ (_ ≫= _) => apply P_bind; [|intros ?]
  | |- P _ (mret _) => apply P_ret
  | |- P _ (raise _) => apply P_raise
  | |- P _ (lift ?r) => destruct r; [apply P_raise | apply P_ret]
  | |- P _ (deref _) => apply P_deref
  | |- P _ get_moments => apply P_get_moments
  | |- P _ get_num_qubits => apply P_get_num_qubits
  | |- P _ get_update_rule => apply P_get_update_rule
  | |- P _ (_create_new_moment None) => apply P_create_empty_moment
  | |- P _ (update_instruction _ _) => apply P_update_instruction
  | |- P _ (update_moment _ _) => apply P_update_moment
  | |- P _ (if ?b then _ else _) => destruct b
  | |- P _ (match ?x with _ => _ end) => destruct x
  end.

Lemma E_append_moment l : P _ (append_moment l).
Proof. unfold append_moment. repeat estep. Qed.

Lemma E_append_circuit_from ms : P _ (append_circuit_from ms).
Proof.
  induction ms as [|l ms IH]; simpl; [estep|].
  repeat first [ apply E_append_moment | apply IH | estep ].
Qed.

Lemma E_update_element e rule index : P _ (update_element e rule index).
Proof.
  destruct e; simpl; repeat first [ apply E_append_circuit_from | estep ].
Qed.

Lemma E_update_loop es rule index : P _ (update_loop es rule index).
Proof.
  revert rule. induction es as [|e es IH]; intros rule; simpl; [estep|].
  estep; [apply E_update_element | apply IH].
Qed.

Lemma E_append operation mp rule : P _ (append operation mp rule).
Proof.
  destruct operation; simpl;
    unfold append_iterable, append_prelude, append_unindexed,
      append_prelude_first, _update;
    repeat first [ apply E_update_loop | estep ].
Qed.

Lemma E_run_calls cs : P _ (run_calls cs).
Proof.
  induction cs as [|[[operation mp] rule] cs IH]; simpl; [estep|].
  estep; [apply E_append | apply IH].
Qed.

End methods_by_element.

(** * Instructions stay within range *)

#[local] Instance keeps_in_range_preorder : PreOrder keeps_in_range.
Proof.
  split; [by intros w|].
  intros w1 w2 w3 [Hn12 H12] [Hn23 H23]. split; [congruence | tauto].
Qed.

Lemma forallb_snoc {A} (f : A → bool) xs x :
  forallb f xs = true → f x = true → forallb f (xs ++ [x]) = true.
Proof. intros Hxs Hx. rewrite forallb_app. simpl. by rewrite Hxs, Hx. Qed.

Lemma moment_append_in_range l op w :
  instruction_in_range (num_qubits (self w)) op = true →
  l ∈ _moments (self w) →
  keeps_in_range w (moment_append l op w).2 ∧
  _moments (self (moment_append l op w).2) = _moments (self w).
Proof.
  intros Hop Hl. unfold moment_append, Moment.append. mrun.
  destruct (Moment.appendable (moment_at (heap w) l) op); mrun; [|done].
  split; [|done]. split; [done|]. intros Hw l' Hl'. simpl in *.
  destruct (decide (l' = l)) as [->|Hne].
  - destruct (decide (l < length (heap w))) as [Hlt|Hge].
    + rewrite moment_at_insert_eq by done. apply forallb_snoc; [by apply Hw|done].
    + rewrite list_insert_ge by lia. by apply Hw.
  - rewrite moment_at_insert_ne by done. by apply Hw.
Qed.

Lemma create_new_moment_in_range o w :
  (∀ op, o = Some op → instruction_in_range (num_qubits (self w)) op = true) →
  keeps_in_range w (_create_new_moment o w).2.
Proof.
  intros Ho. unfold _create_new_moment. mrun. split; [done|].
  intros Hw l Hl. simpl in *.
  apply elem_of_app in Hl as [Hl| ->%list_elem_of_singleton].
  - specialize (Hw l Hl). unfold moment_at in *.
    destruct (decide (l < length (heap w))) as [Hlt|Hge].
    + by rewrite lookup_app_l.
    + rewrite lookup_app_r by lia.
      destruct (l - length (heap w)) as [|n]; simpl; [|by destruct n].
      destruct o as [op|]; simpl; [|done]. by rewrite Ho.
  - unfold moment_at. rewrite lookup_app_r, Nat.sub_diag by done. simpl.
    destruct o as [op|]; simpl; [|done]. by rewrite Ho.
Qed.

Lemma earliest_scan_in_range op ms : ∀ appended w,
  instruction_in_range (num_qubits (self w)) op = true →
  (∀ l, l ∈ ms → l ∈ _moments (self w)) →
  keeps_in_range w (earliest_scan op ms appended w).2 ∧
  _moments (self (earliest_scan op ms appended w).2) = _moments (self w).
Proof.
  induction ms as [|l ms IH]; intros appended w Hop Hms; [done|].
  cbn [earliest_scan]. rewrite run_bind. unfold deref at 1. mrun.
  destruct (Moment.appendable (moment_at (heap w) l) op).
  - rewrite run_bind.
    destruct (moment_append_in_range l op w Hop) as [[Hn1 H1] Hms1];
      [apply Hms; by left|].
    destruct (moment_append l op w) as [[[]|e] w1]; simpl in *; [|done].
    destruct (IH true w1) as [[Hn2 H2] Hms2].
    + by rewrite Hn1.
    + intros l' Hl'. rewrite Hms1. apply Hms. by right.
    + split; [|congruence]. split; [congruence | tauto].
  - apply IH; [done|]. intros l' Hl'. apply Hms. by right.
Qed.

Lemma place_in_range op rule w :
  instruction_in_range (num_qubits (self w)) op = true →
  keeps_in_range w (place op rule w).2.
Proof.
  intros Hop.
  destruct rule; unfold place.
  - unfold _earliest_appended. mrun.
    destruct (earliest_scan_in_range op (_moments (self w)) false w Hop)
      as [Hscan _]; [done|].
    destruct (earliest_scan op _ false w) as [[b|e] w1]; simpl in *; [|done].
    destruct b; simpl; [done|].
    etrans; [exact Hscan|].
    apply (create_new_moment_in_range (Some op) w1). intros ? [= <-].
    by rewrite (proj1 Hscan).
  - unfold last_moment. mrun.
    destruct (last (_moments (self w))) as [l|] eqn:Hlast; mrun; [|done].
    assert (l ∈ _moments (self w)) as Hl.
    { apply last_Some in Hlast as [ms' ->]. apply elem_of_app. right. by left. }
    destruct (Moment.appendable (moment_at (heap w) l) op).
    + pose proof (proj1 (moment_append_in_range l op w Hop Hl)) as Hk.
      by destruct (moment_append l op w) as [[[]|e] w1].
    + pose proof (create_new_moment_in_range (Some op) w) as Hk.
      destruct (_create_new_moment (Some op) w) as [[[]|e] w1];
        apply Hk; by intros ? [= <-].
  - unfold first_moment. mrun.
    destruct (_moments (self w)) as [|l ms] eqn:Hms; mrun; [done|].
    assert (l ∈ _moments (self w)) as Hl by (rewrite Hms; left).
    destruct (bool_decide (moment_at (heap w) l = [])).
    + pose proof (proj1 (moment_append_in_range l op w Hop Hl)) as Hk.
      by destruct (moment_append l op w) as [[[]|e] w1].
    + pose proof (create_new_moment_in_range (Some op) w) as Hk.
      destruct (_create_new_moment (Some op) w) as [[[]|e] w1];
        apply Hk; by intros ? [= <-].
  - unfold first_moment. mrun.
    destruct (_moments (self w)) as [|l ms] eqn:Hms; mrun; [done|].
    assert (l ∈ _moments (self w)) as Hl by (rewrite Hms; left).
    destruct (bool_decide (moment_at (heap w) l = [])).
    + pose proof (proj1 (moment_append_in_range l op w Hop Hl)) as Hk.
      by destruct (moment_append l op w) as [[[]|e] w1].
    + pose proof (create_new_moment_in_range (Some op) w) as Hk.
      destruct (_create_new_moment (Some op) w) as [[[]|e] w1];
        apply Hk; by intros ? [= <-].
  - done.
Qed.

Lemma keeps_in_range_table tbl w : keeps_in_range w (with_parameter_table tbl w).
Proof. done. Qed.

Lemma update_instruction_in_range op rule :
  steps keeps_in_range (update_instruction op rule).
Proof.
  intros w.
  change (update_instruction op rule w)
    with ((n ← get_num_qubits;
           ok ← lift (validate_operation_instruction op n);
           if ok : bool then _add_parameters op;; place op rule
           else mret rule) w).
  unfold validate_operation_instruction. mrun.
  destruct (instruction_in_range (length (_qubits (self w))) op) eqn:Hop;
    mrun; [|done].
  destruct (add_parameters_frame op w) as (tbl' & Hw1 & _).
  destruct (_add_parameters op w) as [[[]|e] w1]; simpl in *; subst w1; [|done].
  etrans; [apply (keeps_in_range_table tbl')|]. by apply place_in_range.
Qed.

Lemma update_moment_in_range l index : steps keeps_in_range (update_moment l index).
Proof.
  intros w. unfold update_moment, validate_operation_moment, insert_moment.
  mrun.
  destruct (forallb _ (moment_at (heap w) l)) eqn:Hvalid; mrun; [|done].
  destruct (add_parameters_all_frame (moment_at (heap w) l) w) as (tbl' & Hw1).
  destruct (add_parameters_all _ w) as [[[]|e] w1]; simpl in *; subst w1;
    [|done].
  mrun. split; [done|]. intros Hw l' Hl'. simpl in *.
  unfold list_insert_at in Hl'.
  apply elem_of_app in Hl' as [Hl'%subseteq_take|Hl']; [by apply Hw|].
  apply elem_of_cons in Hl' as [->|Hl'%subseteq_drop]; [done | by apply Hw].
Qed.

(** Whatever is appended, returning or raising: if every instruction in
    the moments of the circuit was within the range of its qubits, so is
    every instruction in its moments afterwards. *)
Theorem append_keeps_in_range (operation : operand) (mp : option mapping)
    (rule : option UpdateRule) (w : world) :
  placed_in_range w → placed_in_range (append operation mp rule w).2.
Proof.
  apply (E_append (λ A, steps keeps_in_range)); intros.
  - apply (@steps_ret keeps_in_range keeps_in_range_preorder).
  - apply (@steps_raise keeps_in_range keeps_in_range_preorder).
  - by apply (@steps_bind keeps_in_range keeps_in_range_preorder).
  - apply (@steps_gets keeps_in_range keeps_in_range_preorder).
  - apply (@steps_gets keeps_in_range keeps_in_range_preorder).
  - apply (@steps_gets keeps_in_range keeps_in_range_preorder).
  - apply (@steps_deref keeps_in_range keeps_in_range_preorder).
  - intros w'. by apply create_new_moment_in_range.
  - apply update_instruction_in_range.
  - apply update_moment_in_range.
Qed.

Lemma append_keeps_in_range_witness :
  let A := instr 1 [0%Z] in
  let B := instr 2 [1%Z] in
  let w := (run_calls [append_op A] (fresh 2 EARLIEST)).2 in
  let r := append (OSeq [EInstruction B; EInstruction (instr 3 [7%Z])]) None None w in
  r.1 = Raise OutOfRangeResource ∧ moment_structure r.2 = [[A; B]] ∧
  placed_in_range r.2.
Proof.
  intros A B w r.
  assert (placed_in_range w) as Hw.
  { unfold placed_in_range. apply Forall_forall. compute_done. }
  split; [reflexivity|]. split; [reflexivity|].
  exact (append_keeps_in_range _ None None w Hw).
Defined.

(** * The parameters of a circuit built by appends *)

Lemma keeps_I2_moment_append l op : steps keeps_I2 (moment_append l op).
Proof.
  intros w. unfold keeps_I2, moment_append, Moment.append. mrun.
  by destruct (Moment.appendable _ _).
Qed.

(** A circuit as constructed, after any sequence of [append] calls, each
    returning or the last one raising: [params] holds no two parameters
    with the same display name and no parameter twice. *)
Theorem params_distinct (n : Z) (nm : option string) (rule : UpdateRule)
    (h : list Moment.t) (cs : list call) :
  let w := (run_calls cs {| self := __init__ n nm rule; heap := h |}).2 in
  NoDup (param_name <$> params_of w) ∧ NoDup (param_id <$> params_of w).
Proof.
  intros w.
  assert (steps keeps_I2 (run_calls cs)) as Hsteps.
  { apply (P_run_calls (λ A, steps keeps_I2)); intros.
    - apply (@steps_ret keeps_I2 keeps_I2_preorder).
    - apply (@steps_raise keeps_I2 keeps_I2_preorder).
    - by apply (@steps_bind keeps_I2 keeps_I2_preorder).
    - apply (@steps_gets keeps_I2 keeps_I2_preorder).
    - apply (@steps_gets keeps_I2 keeps_I2_preorder).
    - apply (@steps_gets keeps_I2 keeps_I2_preorder).
    - apply (@steps_deref keeps_I2 keeps_I2_preorder).
    - apply keeps_I2_moment_append.
    - intros w' HI2. exact HI2.
    - apply keeps_I2_register.
    - intros w' HI2. exact HI2. }
  apply (Hsteps {| self := __init__ n nm rule; heap := h |}).
  split; apply NoDup_nil; done.
Qed.

(** * At most one new moment for an instruction *)

Lemma place_len op rule w :
  instruction_in_range (num_qubits (self w)) op = true →
  length (_moments (self (place op rule w).2)) ≤ S (length (_moments (self w))).
Proof.
  intros Hop.
  assert (∀ l, length (_moments (self (moment_append l op w).2))
               = length (_moments (self w))) as Happend.
  { intros l. unfold moment_append, Moment.append. mrun.
    by destruct (Moment.appendable _ _). }
  assert (∀ w', _moments (self w') = _moments (self w) →
            length (_moments (self (_create_new_moment (Some op) w').2))
            = S (length (_moments (self w)))) as Hcreate.
  { intros w' Hw'. unfold _create_new_moment. mrun.
    rewrite length_app, Hw'. simpl. lia. }
  destruct rule; unfold place.
  - unfold _earliest_appended. mrun.
    destruct (earliest_scan_in_range op (_moments (self w)) false w Hop)
      as [_ Hms]; [done|].
    destruct (earliest_scan op _ false w) as [[b|e] w1]; simpl in *;
      [|rewrite Hms; lia].
    destruct b; simpl; [rewrite Hms; lia|].
    rewrite length_app, Hms. simpl. lia.
  - unfold last_moment. mrun.
    destruct (last (_moments (self w))) as [l|]; mrun; [|lia].
    destruct (Moment.appendable (moment_at (heap w) l) op).
    + specialize (Happend l).
      destruct (moment_append l op w) as [[[]|e] w1]; simpl in *; lia.
    + specialize (Hcreate w eq_refl).
      destruct (_create_new_moment (Some op) w) as [[[]|e] w1]; simpl in *; lia.
  - unfold first_moment. mrun.
    destruct (_moments (self w)) as [|l ms] eqn:Hms; mrun;
      [rewrite Hms; simpl; lia|].
    destruct (bool_decide (moment_at (heap w) l = [])); cbv beta iota.
    + specialize (Happend l).
      destruct (moment_append l op w) as [[[]|e] w1]; simpl in *; lia.
    + specialize (Hcreate w Hms).
      destruct (_create_new_moment (Some op) w) as [[[]|e] w1]; simpl in *; lia.
  - unfold first_moment. mrun.
    destruct (_moments (self w)) as [|l ms] eqn:Hms; mrun;
      [rewrite Hms; simpl; lia|].
    destruct (bool_decide (moment_at (heap w) l = [])); cbv beta iota.
    + specialize (Happend l).
      destruct (moment_append l op w) as [[[]|e] w1]; simpl in *; lia.
    + specialize (Hcreate w Hms).
      destruct (_create_new_moment (Some op) w) as [[[]|e] w1]; simpl in *; lia.
  - simpl. lia.
Qed.

Lemma place_first_len op rule tbl w :
  length (_moments (self
    (place op rule
       (with_parameter_table tbl
          (with_moments [length (heap w)] (with_heap (heap w ++ [[]]) w)))).2))
  = 1.
Proof.
  assert (moment_at (heap w ++ [[]]) (length (heap w)) = []) as Hat.
  { unfold moment_at. by rewrite lookup_app_r, Nat.sub_diag. }
  destruct rule;
    repeat (progress (unfold place, _earliest_appended, first_moment,
                        last_moment, moment_append, Moment.append;
                      mrun; rewrite ?Hat, ?appendable_nil));
    done.
Qed.

(** Appending one instruction, under any rule, returning or raising,
    makes the sequence of moments longer by at most one moment. *)
Theorem append_instruction_depth (op : Instruction) (mp : option mapping)
    (rule : option UpdateRule) (w : world) :
  len (self w) ≤ len (self (append (OSingle (EInstruction op)) mp rule w).2)
  ≤ S (len (self w)).
Proof.
  split.
  { pose proof (steps_append grows grows_moment_append grows_create_new_moment
                  grows_register grows_insert_moment
                  (OSingle (EInstruction op)) mp rule w) as [Hsub _ _].
    by apply sublist_length. }
  unfold len.
  assert (∀ r w0,
    length (_moments (self (update_instruction op r w0).2))
    ≤ S (length (_moments (self w0)))) as Hgeneral.
  { intros r w0.
    change (update_instruction op r w0)
      with ((n ← get_num_qubits;
             ok ← lift (validate_operation_instruction op n);
             if ok : bool then _add_parameters op;; place op r
             else mret r) w0).
    unfold validate_operation_instruction. mrun.
    destruct (instruction_in_range (length (_qubits (self w0))) op) eqn:Hop;
      mrun; [|lia].
    destruct (add_parameters_frame op w0) as (tbl' & Hw1 & _).
    destruct (_add_parameters op w0) as [[[]|e] w1]; simpl in *; subst w1;
      [|simpl; lia].
    by apply (place_len op r (with_parameter_table tbl' w0)). }
  destruct (decide (_moments (self w) = [])) as [Hms|Hms].
  - rewrite append_single_run, append_seq_run.
    set (w0 := with_moments [length (heap w)] (with_heap (heap w ++ [[]]) w)).
    assert (append_prelude [EInstruction op] w = (Return (), w0)) as ->.
    { unfold append_prelude, _create_new_moment. mrun. rewrite Hms. mrun.
      rewrite ?Hms. reflexivity. }
    rewrite update_loop_cons. cbn [update_element update_loop].
    assert (length (_moments (self (update_instruction op
              (default (update_rule (self w)) rule) w0).2)) = 1) as Hone.
    { change (update_instruction op (default (update_rule (self w)) rule) w0)
        with ((n ← get_num_qubits;
               ok ← lift (validate_operation_instruction op n);
               if ok : bool
               then _add_parameters op;; place op (default (update_rule (self w)) rule)
               else mret (default (update_rule (self w)) rule)) w0).
      unfold validate_operation_instruction. mrun.
      destruct (instruction_in_range (length (_qubits (self w))) op); mrun;
        [|done].
      destruct (add_parameters_frame op w0) as (tbl' & Hw1 & _).
      destruct (_add_parameters op w0) as [[[]|e] w1]; simpl in *; subst w1;
        [|done].
      apply place_first_len. }
    rewrite Hms. simpl.
    destruct (update_instruction op _ w0) as [[r'|e] w1]; simpl in *; lia.
  - rewrite append_instruction_with_moments by done.
    specialize (Hgeneral (default (update_rule (self w)) rule) w).
    destruct (update_instruction op _ w) as [[r'|e] w1]; simpl in *; lia.
Qed.

(** * The number of qubits *)

(** A circuit constructed with the number [n] has [|n|] qubits, a
    negative number counting as its absolute value, and keeps that number
    through any sequence of [append] calls, each returning or the last one
    raising. *)
Theorem num_qubits_fixed (n : Z) (nm : option string) (rule : UpdateRule)
    (h : list Moment.t) (cs : list call) :
  let w := (run_calls cs {| self := __init__ n nm rule; heap := h |}).2 in
  Z.of_nat (num_qubits (self w)) = Z.abs n.
Proof.
  intros w.
  assert (steps same_attributes (run_calls cs)) as Hsteps.
  { apply (P_run_calls (λ A, steps same_attributes)); intros.
    - apply (@steps_ret same_attributes same_attributes_preorder).
    - apply (@steps_raise same_attributes same_attributes_preorder).
    - by apply (@steps_bind same_attributes same_attributes_preorder).
    - apply (@steps_gets same_attributes same_attributes_preorder).
    - apply (@steps_gets same_attributes same_attributes_preorder).
    - apply (@steps_gets same_attributes same_attributes_preorder).
    - apply (@steps_deref same_attributes same_attributes_preorder).
    - intros w'. unfold moment_append, Moment.append. mrun.
      by destruct (Moment.appendable _ _).
    - by intros w'.
    - intros w'. destruct (register_frame i k p w') as (tbl' & -> & _). done.
    - by intros w'. }
  destruct (Hsteps {| self := __init__ n nm rule; heap := h |}) as (Hq & _).
  unfold num_qubits. subst w. rewrite Hq. simpl.
  rewrite length_seq. apply Zabs2Nat.id_abs.
Qed.

(** * Determinism *)








Lemma own_moments_store w l m :
  own_moments w → own_moments (with_heap (<[l := m]> (heap w)) w).
Proof.
  intros [Hnd Hlive]. split; simpl; [done|].
  intros l' Hl'. rewrite length_insert. by apply Hlive.
Qed.




















